(** * storybook-scraper: the hierarchy-to-Markdown transformer and its driver

    A shallow embedding of [scrape-storybook.js].  The repository holds two
    revisions of the script: [src/scrape-storybook.js] and the copy bundled
    with the README in [src/unnamed/part_000].  [buildMarkdownForStory] and
    the story loop of [main] are the same in both; the in-page extraction of
    code blocks differs and is embedded once per revision (modules
    [ScrapeStorybook] and [Part000]). *)

From Stdlib Require Import String Ascii DecimalString.
From Stdlib Require Import List NArith Arith Bool Lia.
Import ListNotations.

Set Implicit Arguments.

(** ** JavaScript strings

    A JS string is a sequence of UTF-16 code units. *)

Definition jschar := N.
Definition jsstring := list jschar.

Definition lit (s : string) : jsstring :=
  List.map N_of_ascii (list_ascii_of_string s).

Definition LF : jschar := 10%N.
Definition CR : jschar := 13%N.
Definition TAB : jschar := 9%N.
Definition SPACE : jschar := 32%N.
Definition NBSP : jschar := 160%N.
Definition SLASH : jschar := 47%N.
Definition HASH : jschar := 35%N.

Definition jsstring_eq_dec : forall a b : jsstring, {a = b} + {a <> b} :=
  list_eq_dec N.eq_dec.

Definition jsstring_eqb (a b : jsstring) : bool :=
  if jsstring_eq_dec a b then true else false.

(** Truthiness of a string: only the empty string is falsy.  This is also
    what [Boolean] does as the callback of [filter]. *)
Definition truthy (s : jsstring) : bool :=
  match s with [] => false | _ :: _ => true end.

(** [a || b] where [a] may be [undefined] (absent field). *)
Definition or_else (a : option jsstring) (b : jsstring) : jsstring :=
  match a with
  | Some s => if truthy s then s else b
  | None => b
  end.

(** [a !== b] for a string [a] and an array read [b] that is [undefined]
    out of range. *)
Definition strict_neq (a : jsstring) (b : option jsstring) : bool :=
  match b with
  | Some s => negb (jsstring_eqb a s)
  | None => true
  end.

(** [s.split(sep)] for a one-character separator. *)
Fixpoint split (sep : jschar) (s : jsstring) : list jsstring :=
  match s with
  | [] => [[]]
  | c :: r =>
      if N.eqb c sep then [] :: split sep r
      else match split sep r with
           | seg :: segs => (c :: seg) :: segs
           | [] => [[c]]
           end
  end.

(** [x.repeat(n)] for a one-character string. *)
Definition repeatChar (c : jschar) (n : nat) : jsstring := List.repeat c n.

(** [arr.join(sep)] on an array of strings. *)
Fixpoint join (sep : jsstring) (l : list jsstring) : jsstring :=
  match l with
  | [] => []
  | [x] => x
  | x :: r => x ++ sep ++ join sep r
  end.

(** Template interpolation of a non-negative integer. *)
Definition decimal (n : nat) : jsstring :=
  lit (NilZero.string_of_uint (Nat.to_uint n)).

(** ** Data model *)

Record Story := mkStory {
  story_id : jsstring;
  story_title : option jsstring;
  story_name : option jsstring
}.

Record CodeBlock := mkCodeBlock {
  language : jsstring;
  code : jsstring
}.

Record Table := mkTable {
  headers : list jsstring;
  rows : list (list jsstring)
}.

Record Content := mkContent {
  codeBlocks : list CodeBlock;
  tables : list Table
}.

(** ** [buildMarkdownForStory] *)

(** A Markdown heading line followed by a blank line:
    [`${'#'.repeat(level)} ${text}\n\n`]. *)
Definition heading (level : nat) (text : jsstring) : jsstring :=
  repeatChar HASH level ++ [SPACE] ++ text ++ [LF; LF].

(** [(story.title || '').split('/').filter(Boolean)] *)
Definition titlePartsOf (story : Story) : list jsstring :=
  List.filter truthy (split SLASH (or_else (story_title story) [])).

(** Body of the loop over the title parts, at index [i]. *)
Definition headingStep (titleParts lastTitleParts : list jsstring)
    (md : jsstring) (i : nat) : jsstring :=
  if strict_neq (nth i titleParts []) (nth_error lastTitleParts i)
  then let level := i + 1 in md ++ heading level (nth i titleParts [])
  else md.

(** [for (let i = 0; i < titleParts.length; i++) ...] *)
Definition headingLoop (titleParts lastTitleParts : list jsstring)
    (md : jsstring) : jsstring :=
  fold_left (headingStep titleParts lastTitleParts)
            (seq 0 (length titleParts)) md.

(** [arr.forEach((x, idx) => ...)] threading the accumulated text. *)
Fixpoint forEachFrom (A : Type) (f : jsstring -> A -> nat -> jsstring)
    (l : list A) (idx : nat) (md : jsstring) : jsstring :=
  match l with
  | [] => md
  | x :: r => forEachFrom f r (S idx) (f md x idx)
  end.

Definition forEach (A : Type) (f : jsstring -> A -> nat -> jsstring)
    (l : list A) (md : jsstring) : jsstring :=
  forEachFrom f l 0 md.

Definition FENCE : jsstring := lit "```".

(** Callback of [codeBlocks.forEach]. *)
Definition emitCodeBlock (storyHeadingLevel : nat)
    (md : jsstring) (block : CodeBlock) (idx : nat) : jsstring :=
  let exampleHeadingLevel := storyHeadingLevel + 1 in
  let md := md ++ heading exampleHeadingLevel (lit "Code example " ++ decimal (idx + 1)) in
  let lang := or_else (Some (language block)) [] in
  let md := md ++ FENCE ++ lang ++ [LF] in
  let md := md ++ code block ++ [LF] in
  md ++ FENCE ++ [LF; LF].

(** [arr.map((_, i) => `Column ${i + 1}`)] *)
Definition columnLabels (A : Type) (row : list A) : list jsstring :=
  List.map (fun i => lit "Column " ++ decimal (i + 1)) (seq 0 (length row)).

(** [table.headers.length ? table.headers
      : table.rows[0]?.map((_, i) => `Column ${i + 1}`) || []].
    An array, even an empty one, is truthy, so the [|| []] only stands in
    for the [undefined] of a missing first row. *)
Definition effectiveHeaders (table : Table) : list jsstring :=
  if 0 <? length (headers table) then headers table
  else match nth_error (rows table) 0 with
       | Some row0 => columnLabels row0
       | None => []
       end.

(** [while (paddedRow.length < n) paddedRow.push('')]; [fuel] bounds the
    number of iterations. *)
Fixpoint padWhile (fuel : nat) (paddedRow : list jsstring) (n : nat)
    : list jsstring :=
  if length paddedRow <? n then
    match fuel with
    | 0 => paddedRow
    | S fuel' => padWhile fuel' (paddedRow ++ [[]]) n
    end
  else paddedRow.

Definition CELLSEP : jsstring := lit " | ".
Definition ROWOPEN : jsstring := lit "| ".
Definition ROWCLOSE : jsstring := lit " |" ++ [LF].

(** Body of [for (const row of table.rows)]. *)
Definition emitRow (hs : list jsstring) (md : jsstring) (row : list jsstring)
    : jsstring :=
  let paddedRow := padWhile (length hs) row (length hs) in
  md ++ ROWOPEN ++ join CELLSEP paddedRow ++ ROWCLOSE.

(** Callback of [tables.forEach]. *)
Definition emitTable (storyHeadingLevel : nat)
    (md : jsstring) (table : Table) (idx : nat) : jsstring :=
  let tableHeadingLevel := storyHeadingLevel + 1 in
  let md := md ++ heading tableHeadingLevel (lit "Props table " ++ decimal (idx + 1)) in
  let hs := effectiveHeaders table in
  if length hs =? 0 then md
  else
    let md := md ++ ROWOPEN ++ join CELLSEP hs ++ ROWCLOSE in
    let md := md ++ ROWOPEN ++ join CELLSEP (List.map (fun _ => lit "---") hs) ++ ROWCLOSE in
    let md := fold_left (emitRow hs) (rows table) md in
    md ++ [LF].

Definition storyNameOf (story : Story) : jsstring :=
  or_else (story_name story) (story_id story).

Definition buildMarkdownForStory (story : Story) (content : Content)
    (lastTitleParts : list jsstring) : jsstring :=
  let md := [] in
  let titleParts := titlePartsOf story in
  let md := headingLoop titleParts lastTitleParts md in
  let storyHeadingLevel := length titleParts + 1 in
  let storyName := storyNameOf story in
  let md := md ++ heading storyHeadingLevel storyName in
  let md :=
    if 0 <? length (codeBlocks content)
    then forEach (emitCodeBlock storyHeadingLevel) (codeBlocks content) md
    else md in
  let md :=
    if 0 <? length (tables content)
    then forEach (emitTable storyHeadingLevel) (tables content) md
    else md in
  md.

(** ** The story loop of [main]

    The loop is the same in both revisions; it is written once over the type
    of rendered pages and the in-page extraction function.  For each story
    the navigation either fails ([page.goto] throws: [None]) or gives a
    rendered page. *)

Inductive Completion (A : Type) : Type :=
| Normal (a : A)
| Throw.   (* an uncaught TypeError, which [main().catch] turns into exit 1 *)

Arguments Throw {A}.

Record LoopState := mkLoopState {
  markdown : jsstring;
  lastTitleParts : list jsstring
}.

Inductive Outcome : Type :=
| Written (doc : jsstring)   (* [fs.writeFile(outFile, markdown)] *)
| Exit1.                     (* [process.exit(1)], nothing written *)

(** [s.replace(/\/$/, '')] *)
Fixpoint dropTrailingSlash (s : jsstring) : jsstring :=
  match s with
  | [] => []
  | c :: r =>
      match r with
      | [] => if N.eqb c SLASH then [] else [c]
      | _ :: _ => c :: dropTrailingSlash r
      end
  end.

Definition preamble (baseUrl : jsstring) : jsstring :=
  lit "# Storybook export" ++ [LF; LF] ++ lit "From: " ++ baseUrl ++ [LF; LF].

Section Driver.

Variable Page : Type.
Variable evaluateContent : Page -> Content.

(** One iteration of [for (let index = 0; ...)]. *)
Definition loopBody (st : LoopState) (story : Story) (goto : option Page)
    : Completion LoopState :=
  match goto with
  | None => Normal st                       (* catch (err) { ...; continue; } *)
  | Some page =>
      let content := evaluateContent page in
      let markdown' :=
        markdown st ++ buildMarkdownForStory story content (lastTitleParts st) in
      match story_title story with
      | None => Throw                       (* undefined.split *)
      | Some title => Normal (mkLoopState markdown' (split SLASH title))
      end
  end.

Fixpoint storiesLoop (stories : list (Story * option Page)) (st : LoopState)
    : Completion LoopState :=
  match stories with
  | [] => Normal st
  | (story, goto) :: rest =>
      match loopBody st story goto with
      | Normal st' => storiesLoop rest st'
      | Throw => Throw
      end
  end.

(** [main] from the point where the manifest has been fetched: [argv2] is
    [process.argv[2] || ''] and [stories] the values of [storiesJson.stories]
    in order, each with the outcome of loading its docs page.  A manifest
    that cannot be fetched, and rejections outside the [try] other than the
    split of a missing title, are not part of this model. *)
Definition main (argv2 : jsstring) (stories : list (Story * option Page))
    : Outcome :=
  let baseUrl := dropTrailingSlash argv2 in
  if negb (truthy baseUrl) then Exit1
  else if length stories =? 0 then Exit1
  else
    match storiesLoop stories (mkLoopState (preamble baseUrl) []) with
    | Normal st => Written (markdown st)
    | Throw => Exit1
    end.

End Driver.

(** ** In-page extraction of code blocks *)

(** A DOM element matched by a code selector: its identity, its
    [textContent], its [data-language] attribute and its [className]. *)
Record Element := mkElement {
  node : nat;
  textContent : jsstring;
  dataLanguage : option jsstring;
  className : jsstring
}.

Definition inRange (lo hi c : N) : bool := (N.leb lo c && N.leb c hi)%bool.

(** [\w] or [-] *)
Definition isWordOrDash (c : jschar) : bool :=
  (inRange 97 122 c || inRange 65 90 c || inRange 48 57 c
   || N.eqb c 95 || N.eqb c 45)%bool.

Fixpoint stripPrefix (p s : jsstring) : option jsstring :=
  match p, s with
  | [], _ => Some s
  | _ :: _, [] => None
  | a :: p', b :: s' => if N.eqb a b then stripPrefix p' s' else None
  end.

Fixpoint takeWhile (f : jschar -> bool) (s : jsstring) : jsstring :=
  match s with
  | [] => []
  | c :: r => if f c then c :: takeWhile f r else []
  end.

(** [/language-([\w-]+)/.exec(className)]: the first capture group of the
    leftmost match. *)
Fixpoint execLanguage (s : jsstring) : option jsstring :=
  match s with
  | [] => None
  | _ :: r =>
      match stripPrefix (lit "language-") s with
      | Some rest =>
          match takeWhile isWordOrDash rest with
          | [] => execLanguage r
          | m => Some m
          end
      | None => execLanguage r
      end
  end.

(** [langAttr || (match ? match[1] : '')] *)
Definition languageOf (el : Element) (langAttr : option jsstring) : jsstring :=
  or_else langAttr
    (match execLanguage (className el) with Some m => m | None => [] end).

(** ECMAScript WhiteSpace and LineTerminator code units: what [trim]
    removes. *)
Definition isJsWhitespace (c : jschar) : bool :=
  (inRange 9 13 c || N.eqb c 32 || N.eqb c 160 || N.eqb c 5760
   || inRange 8192 8202 c || N.eqb c 8232 || N.eqb c 8233 || N.eqb c 8239
   || N.eqb c 8287 || N.eqb c 12288 || N.eqb c 65279)%bool.

Fixpoint trimStart (s : jsstring) : jsstring :=
  match s with
  | [] => []
  | c :: r => if isJsWhitespace c then trimStart r else s
  end.

Definition trimEnd (s : jsstring) : jsstring := rev (trimStart (rev s)).

Definition trim (s : jsstring) : jsstring := trimEnd (trimStart s).

(** [s.replace(/\u00A0/g, ' ')] *)
Definition replaceNbsp (s : jsstring) : jsstring :=
  List.map (fun c => if N.eqb c NBSP then SPACE else c) s.

(** *** [src/scrape-storybook.js] *)

Module ScrapeStorybook.

(** The rendered page as the extraction sees it. *)
Record Page := mkPage {
  codeElements : list Element;  (* querySelectorAll('pre code, .docblock-source code') *)
  argsTables : list Table       (* value of the [tables] expression *)
}.

(** [(s || '').replace(/\u00A0/g, ' ').trim()] *)
Definition normalize (s : jsstring) : jsstring := trim (replaceNbsp s).

Definition codeBlockOf (el : Element) : CodeBlock :=
  let langAttr := or_else (dataLanguage el) [] in
  mkCodeBlock (languageOf el (Some langAttr)) (normalize (textContent el)).

Definition evaluateContent (page : Page) : Content :=
  mkContent (List.map codeBlockOf (codeElements page)) (argsTables page).

End ScrapeStorybook.

(** *** [src/unnamed/part_000] *)

Module Part000.

Record Page := mkPage {
  preCode : list Element;             (* 'pre code' *)
  docblockSourceCode : list Element;  (* '.docblock-source code' *)
  osContentPre : list Element;        (* '.os-content pre' *)
  osContentCode : list Element;       (* '.os-content code' *)
  prePrismjs : list Element;          (* 'pre.prismjs' *)
  codePrismjs : list Element;         (* 'code.prismjs' *)
  argsTables : list Table             (* value of the [tables] expression *)
}.

Definition isSpaceOrTab (c : jschar) : bool := (N.eqb c SPACE || N.eqb c TAB)%bool.

(** [s.replace(/\r\n/g, '\n')] *)
Fixpoint replaceCrLf (s : jsstring) : jsstring :=
  match s with
  | [] => []
  | c :: r =>
      match r with
      | d :: r' =>
          if (N.eqb c CR && N.eqb d LF)%bool then LF :: replaceCrLf r'
          else c :: replaceCrLf r
      | [] => [c]
      end
  end.

(** What is left after the longest run of spaces and tabs at the head. *)
Fixpoint afterRun (s : jsstring) : jsstring :=
  match s with
  | [] => []
  | c :: r => if isSpaceOrTab c then afterRun r else s
  end.

(** An attempt of [/[ \t]+\n/] at the head of [s]: the greedy run takes
    every space and tab, and giving characters back cannot help, since
    what follows a shorter run is a space or a tab.  The result is the
    text after the match. *)
Definition matchRunNewline (s : jsstring) : option jsstring :=
  match s with
  | [] => None
  | c :: r =>
      if isSpaceOrTab c then
        match afterRun r with
        | d :: rest => if N.eqb d LF then Some rest else None
        | [] => None
        end
      else None
  end.

(** [s.replace(/[ \t]+\n/g, '\n')]: at each position the pattern is tried;
    on a match the replacement is written and the scan resumes after the
    match, otherwise the character is copied.  [fuel] bounds the number of
    scan steps. *)
Fixpoint replaceRunNewline (fuel : nat) (s : jsstring) : jsstring :=
  match fuel with
  | 0 => s
  | S fuel' =>
      match s with
      | [] => []
      | c :: r =>
          match matchRunNewline s with
          | Some rest => LF :: replaceRunNewline fuel' rest
          | None => c :: replaceRunNewline fuel' r
          end
      end
  end.

(** An attempt of [/[ \t]+$/] (no [m] flag: [$] is the end of input). *)
Definition matchRunEnd (s : jsstring) : bool :=
  match s with
  | [] => false
  | c :: r =>
      (isSpaceOrTab c && match afterRun r with [] => true | _ :: _ => false end)%bool
  end.

(** [s.replace(/[ \t]+$/g, '')] *)
Fixpoint replaceRunEnd (s : jsstring) : jsstring :=
  match s with
  | [] => []
  | c :: r => if matchRunEnd s then [] else c :: replaceRunEnd r
  end.

Definition normalizeCode (s : jsstring) : jsstring :=
  if negb (truthy s) then []
  else
    let t := replaceNbsp s in
    let t := replaceCrLf t in
    let t := replaceRunEnd (replaceRunNewline (length t) t) in
    t.

(** [new Set(...)] of DOM elements, in insertion order. *)
Definition setAdd (seen : list Element) (el : Element) : list Element :=
  if existsb (fun e => node e =? node el) seen then seen else seen ++ [el].

Definition candidatesOf (page : Page) : list Element :=
  fold_left setAdd
    (preCode page ++ docblockSourceCode page ++ osContentPre page
     ++ osContentCode page ++ prePrismjs page ++ codePrismjs page) [].

(** The two collections [addCodeBlockFromElement] closes over. *)
Record Collected := mkCollected {
  collectedBlocks : list CodeBlock;
  seenCode : list jsstring
}.

Definition addCodeBlockFromElement (acc : Collected) (el : Element)
    : Collected :=
  let rawText := or_else (Some (textContent el)) [] in
  let text := normalizeCode rawText in
  if negb (truthy text) then acc
  else if existsb (jsstring_eqb text) (seenCode acc) then acc
  else
    let seen := seenCode acc ++ [text] in
    let language := languageOf el (dataLanguage el) in
    mkCollected (collectedBlocks acc ++ [mkCodeBlock language text]) seen.

Definition extractCodeBlocks (page : Page) : list CodeBlock :=
  collectedBlocks
    (fold_left addCodeBlockFromElement (candidatesOf page) (mkCollected [] [])).

Definition evaluateContent (page : Page) : Content :=
  mkContent (extractCodeBlocks page) (argsTables page).

End Part000.

(** ** In-page extraction of tables *)

(** A [td] as the extraction reads it: the data of the text nodes below it
    in document order, which is what a TreeWalker over [SHOW_TEXT] visits;
    its [textContent] is their concatenation. *)
Definition TdElement := list jsstring.

Definition tdTextContent (td : TdElement) : jsstring := List.concat td.

(** An element matched by
    ['.docblock-argstable, table.docblock-argstable']. *)
Record TableElement := mkTableElement {
  theadThs : list jsstring;          (* textContent of each 'thead th' *)
  tbodyTrs : list (list TdElement)   (* the 'td's of each 'tbody tr' *)
}.

(** *** [src/scrape-storybook.js] *)

Module ScrapeStorybookTables.

Definition tableOf (table : TableElement) : Table :=
  let headers := List.map ScrapeStorybook.normalize (theadThs table) in
  let rows :=
    List.map
      (fun tr => List.map (fun td => ScrapeStorybook.normalize (tdTextContent td)) tr)
      (tbodyTrs table) in
  mkTable headers rows.

Definition extractTables (tables : list TableElement) : list Table :=
  List.map tableOf tables.

End ScrapeStorybookTables.

(** *** [src/unnamed/part_000] *)

Module Part000Tables.

(** [s.replace(/\s+/g, ' ')]: at a whitespace character the greedy run is
    replaced by one space and the scan resumes after the run; any other
    character is copied.  [fuel] bounds the number of scan steps. *)
Fixpoint replaceWhitespaceRuns (fuel : nat) (s : jsstring) : jsstring :=
  match fuel with
  | 0 => s
  | S fuel' =>
      match s with
      | [] => []
      | c :: r =>
          if isJsWhitespace c
          then SPACE :: replaceWhitespaceRuns fuel' (trimStart r)
          else c :: replaceWhitespaceRuns fuel' r
      end
  end.

(** [(s || '').replace(/\u00A0/g, ' ').replace(/\s+/g, ' ').trim()] *)
Definition normalizeInline (s : jsstring) : jsstring :=
  let t := replaceNbsp s in
  trim (replaceWhitespaceRuns (length t) t).

(** Body of [while ((node = walker.nextNode()))]. *)
Definition pushToken (tokens : list jsstring) (nodeText : jsstring)
    : list jsstring :=
  let txt := normalizeInline nodeText in
  if truthy txt then tokens ++ [txt] else tokens.

Definition tokensOf (td : TdElement) : list jsstring :=
  fold_left pushToken td [].

(** Callback of the map over the [td]s of a row. *)
Definition cellOf (td : TdElement) : jsstring :=
  let tokens := tokensOf td in
  if 0 <? length tokens then join [SPACE] tokens
  else normalizeInline (tdTextContent td).

Definition tableOf (table : TableElement) : Table :=
  let headers := List.map normalizeInline (theadThs table) in
  let rows := List.map (fun tr => List.map cellOf tr) (tbodyTrs table) in
  mkTable headers rows.

Definition extractTables (tables : list TableElement) : list Table :=
  List.map tableOf tables.

End Part000Tables.

(** * Derived and specification-level definitions *)

(** ** The text a call appends

    Every callback only appends to [md]; what a loop appends does not depend
    on the text accumulated before it. *)

(** The headings the title loop emits, as (level, text) pairs. *)
Definition emittedAt (titleParts lastTitleParts : list jsstring) (i : nat)
    : list (nat * jsstring) :=
  if strict_neq (nth i titleParts []) (nth_error lastTitleParts i)
  then [(i + 1, nth i titleParts [])]
  else [].

Definition segmentHeadings (titleParts lastTitleParts : list jsstring)
    : list (nat * jsstring) :=
  flat_map (emittedAt titleParts lastTitleParts) (seq 0 (length titleParts)).

Definition renderHeadings (hs : list (nat * jsstring)) : jsstring :=
  flat_map (fun h => heading (fst h) (snd h)) hs.

(** The same headings by recursion on the two paths. *)
Fixpoint segsFrom (level : nat) (cur last : list jsstring)
    : list (nat * jsstring) :=
  match cur with
  | [] => []
  | c :: cs =>
      (if strict_neq c (hd_error last) then [(level, c)] else [])
      ++ segsFrom (S level) cs (tl last)
  end.

Fixpoint commonPrefixLength (a b : list jsstring) : nat :=
  match a, b with
  | x :: a', y :: b' =>
      if jsstring_eqb x y then S (commonPrefixLength a' b') else 0
  | _, _ => 0
  end.

(** What the two content loops append for a story heading level. *)
Definition codeSection (level : nat) (block : CodeBlock) (idx : nat) : jsstring :=
  emitCodeBlock level [] block idx.

Definition tableSection (level : nat) (table : Table) (idx : nat) : jsstring :=
  emitTable level [] table idx.

Fixpoint sectionsFrom (A : Type) (g : A -> nat -> jsstring) (l : list A)
    (idx : nat) : jsstring :=
  match l with
  | [] => []
  | x :: r => g x idx ++ sectionsFrom g r (S idx)
  end.

Definition contentSections (level : nat) (content : Content) : jsstring :=
  sectionsFrom (codeSection level) (codeBlocks content) 0
  ++ sectionsFrom (tableSection level) (tables content) 0.

Definition rowLine (cells : list jsstring) : jsstring :=
  ROWOPEN ++ join CELLSEP cells ++ ROWCLOSE.

Definition separatorLine (hs : list jsstring) : jsstring :=
  rowLine (List.map (fun _ => lit "---") hs).

Definition padTo (n : nat) (row : list jsstring) : list jsstring :=
  row ++ List.repeat [] (n - length row).

Definition tableHeading (level idx : nat) : jsstring :=
  heading (level + 1) (lit "Props table " ++ decimal (idx + 1)).

(** The display name in the spec's words: the name field when present, the
    id otherwise. *)
Definition nameOrId (story : Story) : jsstring :=
  match story_name story with
  | Some name => name
  | None => story_id story
  end.

Definition loaded (Page : Type) (entry : Story * option Page) : bool :=
  match snd entry with Some _ => true | None => false end.

(** Some empty segment of the raw split stands before a non-empty one. *)
Fixpoint emptyBeforeNonEmpty (raw : list jsstring) : bool :=
  match raw with
  | [] => false
  | seg :: r => if truthy seg then emptyBeforeNonEmpty r else existsb truthy r
  end.

(** *** Code text normalization *)

(** The end of the text or a newline comes next. *)
Definition atBreak (s : jsstring) : bool :=
  match s with
  | [] => true
  | d :: _ => N.eqb d LF
  end.

Definition startsNewline (s : jsstring) : bool :=
  match s with
  | [] => false
  | d :: _ => N.eqb d LF
  end.

(** In the spec's words: the spaces and tabs that trail before a newline or
    at the very end go, every other character stays. *)
Fixpoint dropTrailingBlanks (s : jsstring) : jsstring :=
  match s with
  | [] => []
  | c :: r =>
      if (Part000.isSpaceOrTab c && atBreak (Part000.afterRun r))%bool
      then dropTrailingBlanks r
      else c :: dropTrailingBlanks r
  end.

(** The first of the two trims alone, by recursion on the text. *)
Fixpoint dropBeforeNewline (s : jsstring) : jsstring :=
  match s with
  | [] => []
  | c :: r =>
      if (Part000.isSpaceOrTab c && startsNewline (Part000.afterRun r))%bool
      then dropBeforeNewline r
      else c :: dropBeforeNewline r
  end.

(** Some space or tab stands right before a newline or at the very end. *)
Fixpoint blankBeforeBreak (s : jsstring) : bool :=
  match s with
  | [] => false
  | c :: r => ((Part000.isSpaceOrTab c && atBreak r) || blankBeforeBreak r)%bool
  end.

Definition notBlank (c : jschar) : bool := negb (Part000.isSpaceOrTab c).

(** Every CR LF pair becomes LF: a CR goes when an LF comes right after it. *)
Fixpoint dropCrBeforeLf (s : jsstring) : jsstring :=
  match s with
  | [] => []
  | c :: r =>
      if (N.eqb c CR && startsNewline r)%bool then dropCrBeforeLf r
      else c :: dropCrBeforeLf r
  end.

(** A character that no step of [normalizeCode] rewrites or removes:
    neither space, tab, no-break space nor CR. *)
Definition verbatimChar (c : jschar) : bool :=
  negb (Part000.isSpaceOrTab c || N.eqb c NBSP || N.eqb c CR)%bool.

(** *** Duplicate code blocks *)

(** The first occurrence of each text, in order. *)
Definition keepFirst (l : list jsstring) : list jsstring :=
  rev (nodup jsstring_eq_dec (rev l)).

(** The non-empty normalized texts of the candidate elements, in order. *)
Definition candidateTexts (els : list Element) : list jsstring :=
  filter truthy (List.map (fun el => Part000.normalizeCode (textContent el)) els).

(** One "Code example" section as text. *)
Definition codeExample (level number : nat) (block : CodeBlock) : jsstring :=
  heading (level + 1) (lit "Code example " ++ decimal number)
  ++ FENCE ++ language block ++ [LF] ++ code block ++ [LF] ++ FENCE ++ [LF; LF].

(** *** The driver *)

(** Every story whose page loads has a title. *)
Definition allLoadedTitled (Page : Type) (stories : list (Story * option Page))
    : bool :=
  forallb (fun entry =>
             match snd entry, story_title (fst entry) with
             | Some _, None => false
             | _, _ => true
             end) stories.

(** *** Inline text *)

Definition startsWhitespace (s : jsstring) : bool :=
  match s with
  | [] => false
  | c :: _ => isJsWhitespace c
  end.

(** Every whitespace character is a space and is followed by a character
    that is not whitespace, or by the end. *)
Fixpoint spacedOnce (s : jsstring) : bool :=
  match s with
  | [] => true
  | c :: r =>
      ((if isJsWhitespace c then N.eqb c SPACE && negb (startsWhitespace r)
        else true) && spacedOnce r)%bool
  end.

Definition notWhitespace (c : jschar) : bool := negb (isJsWhitespace c).

(** The last character, if any, is not whitespace. *)
Definition endsClean (s : jsstring) : bool :=
  negb (startsWhitespace (rev s)).


(** * Properties *)

Example end_to_end_first :
  buildMarkdownForStory
    (mkStory (lit "components-button--primary") (Some (lit "Components/Button")) (Some (lit "Primary")))
    (mkContent [mkCodeBlock (lit "tsx") (lit "<Button/>")] [])
    []
  = lit "# Components" ++ [LF; LF] ++ lit "## Button" ++ [LF; LF]
    ++ lit "### Primary" ++ [LF; LF] ++ lit "#### Code example 1" ++ [LF; LF]
    ++ lit "```tsx" ++ [LF] ++ lit "<Button/>" ++ [LF] ++ lit "```" ++ [LF; LF].
Proof. vm_compute. reflexivity. Qed.

Lemma jsstring_eqb_refl (a : jsstring) : jsstring_eqb a a = true.
Proof. unfold jsstring_eqb. destruct (jsstring_eq_dec a a); congruence. Qed.

Lemma jsstring_eqb_eq (a b : jsstring) : jsstring_eqb a b = true <-> a = b.
Proof.
  unfold jsstring_eqb. destruct (jsstring_eq_dec a b); split; congruence.
Qed.

Lemma headingStep_app titleParts last md i :
  headingStep titleParts last md i
  = md ++ renderHeadings (emittedAt titleParts last i).
Proof.
  unfold headingStep, emittedAt, renderHeadings.
  destruct (strict_neq _ _); simpl; now rewrite ?app_nil_r.
Qed.

Lemma headingLoop_fold titleParts last (idxs : list nat) : forall md,
  fold_left (headingStep titleParts last) idxs md
  = md ++ renderHeadings (flat_map (emittedAt titleParts last) idxs).
Proof.
  induction idxs as [|i idxs IH]; intros md; simpl.
  - now rewrite app_nil_r.
  - rewrite IH, headingStep_app. unfold renderHeadings.
    now rewrite flat_map_app, app_assoc.
Qed.

Lemma headingLoop_app titleParts last md :
  headingLoop titleParts last md
  = md ++ renderHeadings (segmentHeadings titleParts last).
Proof. apply headingLoop_fold. Qed.

Lemma emitted_from_offset : forall (cs : list jsstring) k (T L last : list jsstring),
  (forall j, j < length cs -> nth (k + j) T ([] : jsstring) = nth j cs []) ->
  (forall j, nth_error L (k + j) = nth_error last j) ->
  flat_map (emittedAt T L) (seq k (length cs)) = segsFrom (k + 1) cs last.
Proof.
  induction cs as [|c cs IH]; intros k T L last HT HL; simpl; [reflexivity|].
  f_equal.
  - unfold emittedAt.
    specialize (HT 0 ltac:(simpl; lia)). specialize (HL 0).
    rewrite Nat.add_0_r in HT, HL. rewrite HT, HL. simpl.
    now destruct last.
  - replace (S (k + 1)) with (S k + 1) by lia. apply IH.
    + intros j Hj. replace (S k + j) with (k + S j) by lia.
      apply (HT (S j)). simpl; lia.
    + intros j. replace (S k + j) with (k + S j) by lia.
      rewrite HL. now destruct last; [destruct j|].
Qed.

Lemma segmentHeadings_segsFrom cur last :
  segmentHeadings cur last = segsFrom 1 cur last.
Proof.
  unfold segmentHeadings. now apply (emitted_from_offset cur 0 cur last last).
Qed.

Lemma segsFrom_levels : forall cur level last,
  Forall (fun h => level <= fst h < level + length cur) (segsFrom level cur last).
Proof.
  induction cur as [|c cs IH]; intros level last; simpl; [constructor|].
  apply Forall_app; split.
  - destruct (strict_neq _ _); repeat constructor; simpl; lia.
  - eapply Forall_impl; [|apply IH]. simpl; intros h Hh; lia.
Qed.

Lemma commonPrefixLength_nil_r (a : list jsstring) : commonPrefixLength a [] = 0.
Proof. now destruct a. Qed.

Lemma segsFrom_length : forall cur level last,
  length (segsFrom level cur last) <= length cur - commonPrefixLength cur last.
Proof.
  induction cur as [|c cs IH]; intros level last; simpl; [lia|].
  destruct last as [|p ps]; simpl.
  - specialize (IH (S level) []).
    rewrite commonPrefixLength_nil_r in IH. lia.
  - destruct (jsstring_eqb c p) eqn:E; simpl.
    + apply IH.
    + specialize (IH (S level) ps). lia.
Qed.

Lemma forEachFrom_sections (A : Type) (f : jsstring -> A -> nat -> jsstring) :
  (forall md x idx, f md x idx = md ++ f [] x idx) ->
  forall l idx md,
    forEachFrom f l idx md = md ++ sectionsFrom (f []) l idx.
Proof.
  intros Hf. induction l as [|x r IH]; intros idx md; simpl.
  - now rewrite app_nil_r.
  - rewrite IH, (Hf md), app_assoc. reflexivity.
Qed.

Lemma emitCodeBlock_app level md block idx :
  emitCodeBlock level md block idx = md ++ codeSection level block idx.
Proof.
  unfold codeSection, emitCodeBlock. cbv zeta. simpl app.
  now rewrite <- !app_assoc.
Qed.

(** The [while] loop leaves with its condition false and has done nothing
    but push empty cells. *)
Lemma padWhile_padTo : forall fuel row n,
  n - length row <= fuel -> padWhile fuel row n = padTo n row.
Proof.
  unfold padTo.
  induction fuel as [|fuel IH]; intros row n Hfuel; simpl.
  - destruct (length row <? n) eqn:E.
    + apply Nat.ltb_lt in E. lia.
    + replace (n - length row) with 0 by lia. simpl. now rewrite app_nil_r.
  - destruct (length row <? n) eqn:E.
    + apply Nat.ltb_lt in E. rewrite IH by (rewrite length_app; simpl; lia).
      rewrite length_app. simpl.
      replace (n - length row) with (S (n - (length row + 1))) by lia.
      simpl. now rewrite <- app_assoc.
    + apply Nat.ltb_ge in E.
      replace (n - length row) with 0 by lia. simpl. now rewrite app_nil_r.
Qed.

Lemma padTo_length n row : length (padTo n row) = Nat.max n (length row).
Proof. unfold padTo. rewrite length_app, repeat_length. lia. Qed.

Lemma padTo_wide n row : n <= length row -> padTo n row = row.
Proof.
  intros H. unfold padTo. replace (n - length row) with 0 by lia.
  apply app_nil_r.
Qed.

Lemma emitRow_app hs md row :
  emitRow hs md row = md ++ rowLine (padTo (length hs) row).
Proof.
  unfold emitRow, rowLine. cbv zeta.
  now rewrite padWhile_padTo by lia.
Qed.

Lemma emitRows_app hs : forall rws md,
  fold_left (emitRow hs) rws md
  = md ++ flat_map (fun row => rowLine (padTo (length hs) row)) rws.
Proof.
  induction rws as [|row rws IH]; intros md; cbn [fold_left flat_map].
  - now rewrite app_nil_r.
  - now rewrite IH, emitRow_app, app_assoc.
Qed.

Lemma emitTable_skipped level md table idx :
  effectiveHeaders table = [] ->
  emitTable level md table idx = md ++ tableHeading level idx.
Proof. intros H. unfold emitTable. cbv zeta. now rewrite H. Qed.

Lemma emitTable_emitted level md table idx :
  effectiveHeaders table <> [] ->
  emitTable level md table idx
  = md ++ tableHeading level idx
    ++ rowLine (effectiveHeaders table)
    ++ separatorLine (effectiveHeaders table)
    ++ flat_map (fun row => rowLine (padTo (length (effectiveHeaders table)) row))
                (rows table)
    ++ [LF].
Proof.
  intros H. unfold emitTable. cbv zeta.
  destruct (effectiveHeaders table) as [|h hs] eqn:E; [congruence|].
  cbn [length Nat.eqb]. rewrite emitRows_app.
  unfold tableHeading, separatorLine, rowLine.
  now rewrite <- !app_assoc.
Qed.

Lemma emitTable_app level md table idx :
  emitTable level md table idx = md ++ tableSection level table idx.
Proof.
  unfold tableSection.
  destruct (effectiveHeaders table) as [|h hs] eqn:E.
  - now rewrite !emitTable_skipped by assumption.
  - rewrite !emitTable_emitted by congruence. reflexivity.
Qed.

Lemma buildMarkdownForStory_sections story content last :
  buildMarkdownForStory story content last
  = renderHeadings (segmentHeadings (titlePartsOf story) last)
    ++ heading (length (titlePartsOf story) + 1) (storyNameOf story)
    ++ contentSections (length (titlePartsOf story) + 1) content.
Proof.
  unfold buildMarkdownForStory, contentSections, forEach. cbv zeta.
  rewrite headingLoop_app. simpl app.
  set (level := length (titlePartsOf story) + 1).
  set (pre := renderHeadings _ ++ heading _ _).
  assert (Hc : (if 0 <? length (codeBlocks content)
                then forEachFrom (emitCodeBlock level) (codeBlocks content) 0 pre
                else pre)
               = pre ++ sectionsFrom (codeSection level) (codeBlocks content) 0).
  { destruct (codeBlocks content) as [|b bs] eqn:E.
    - simpl. now rewrite app_nil_r.
    - cbn [length Nat.ltb Nat.leb].
      now rewrite (forEachFrom_sections _ (emitCodeBlock_app level)). }
  rewrite Hc.
  destruct (tables content) as [|t ts] eqn:E.
  - simpl. subst pre. now rewrite !app_nil_r, <- !app_assoc.
  - cbn [length Nat.ltb Nat.leb].
    rewrite (forEachFrom_sections _ (emitTable_app level)).
    subst pre. now rewrite <- !app_assoc.
Qed.

Lemma heading_not_nil level text : heading level text <> [].
Proof.
  unfold heading. intros H. apply (f_equal (@length _)) in H.
  rewrite !length_app in H. simpl in H. lia.
Qed.

Lemma renderHeadings_nil hs : renderHeadings hs = [] <-> hs = [].
Proof.
  split; [|now intros ->]. destruct hs as [|h hs]; [reflexivity|].
  unfold renderHeadings. simpl. intros H.
  apply app_eq_nil in H as [H _]. now apply heading_not_nil in H.
Qed.

Lemma headingLoop_unchanged_iff (cur last : list jsstring) md :
  headingLoop cur last md = md <-> segmentHeadings cur last = [].
Proof.
  rewrite headingLoop_app, <- renderHeadings_nil. split.
  - intros H. rewrite <- (app_nil_r md) in H at 2. now apply app_inv_head in H.
  - intros ->. apply app_nil_r.
Qed.

Lemma buildMarkdownForStory_leaf_only_iff story content last :
  buildMarkdownForStory story content last
  = heading (length (titlePartsOf story) + 1) (storyNameOf story)
    ++ contentSections (length (titlePartsOf story) + 1) content
  <-> segmentHeadings (titlePartsOf story) last = [].
Proof.
  rewrite buildMarkdownForStory_sections, <- renderHeadings_nil. split.
  - intros H. now apply (app_inv_tail _ _ []) in H.
  - now intros ->.
Qed.

(** ** Path-segment headings *)

(** Every emitted path-segment heading lies below the common prefix, and
    there are at most [length cur - k] of them. *)
Lemma segmentHeadings_bounds cur last :
  length (segmentHeadings cur last) <= length cur - commonPrefixLength cur last
  /\ Forall (fun h => 1 <= fst h <= length cur) (segmentHeadings cur last).
Proof.
  rewrite segmentHeadings_segsFrom. split.
  - apply segsFrom_length.
  - eapply Forall_impl; [|apply segsFrom_levels]. simpl; intros h Hh; lia.
Qed.

(** C1: after the title [A/B/C], the title [A/X/C] shares the prefix [A]
    (k = 1) and has three segments, so two path-segment headings (X at level
    2, C at level 3) are expected; the loop compares index by index and emits
    the heading of X only, and the leaf heading follows at level 4 with no
    level-3 heading above it.  The same holds in a run of [main] over the two
    stories. *)
Theorem segment_equal_after_divergence_not_emitted :
  let cur := [lit "A"; lit "X"; lit "C"] in
  let prev := [lit "A"; lit "B"; lit "C"] in
  let first := mkStory (lit "a-b-c--r") (Some (lit "A/B/C")) (Some (lit "R")) in
  let story := mkStory (lit "a-x-c--s") (Some (lit "A/X/C")) (Some (lit "S")) in
  let page := ScrapeStorybook.mkPage [] [] in
  titlePartsOf story = cur
  /\ split SLASH (lit "A/B/C") = prev
  /\ commonPrefixLength cur prev = 1
  /\ length cur - commonPrefixLength cur prev = 2
  /\ segmentHeadings cur prev = [(2, lit "X")]
  /\ buildMarkdownForStory story (mkContent [] []) prev
     = lit "## X" ++ [LF; LF] ++ lit "#### S" ++ [LF; LF]
  /\ main ScrapeStorybook.evaluateContent (lit "http://sb")
       [(first, Some page); (story, Some page)]
     = Written (preamble (lit "http://sb")
                ++ lit "# A" ++ [LF; LF] ++ lit "## B" ++ [LF; LF]
                ++ lit "### C" ++ [LF; LF] ++ lit "#### R" ++ [LF; LF]
                ++ lit "## X" ++ [LF; LF] ++ lit "#### S" ++ [LF; LF]).
Proof. vm_compute. repeat split. Qed.

(** ** The leaf heading *)

(** C6, as stated, fails for a story whose name is present but empty: [||]
    falls through to the id. *)
Lemma leaf_heading_empty_name_uses_id :
  let story := mkStory (lit "x") (Some (lit "A")) (Some []) in
  story_name story = Some []
  /\ buildMarkdownForStory story (mkContent [] []) []
     = heading 1 (lit "A") ++ heading 2 (lit "x")
  /\ buildMarkdownForStory story (mkContent [] []) []
     <> heading 1 (lit "A") ++ heading 2 (nameOrId story).
Proof. vm_compute. repeat split. discriminate. Qed.

(** C6 (amended): the text of a story is its path-segment headings (all at
    levels up to [length path]), then one leaf heading at level
    [length path + 1], then its content sections, whatever the previous
    path; the leaf text is the name field when it is present and non-empty
    and the id when the name is absent or empty. *)
Theorem leaf_heading_exactly_once story content last :
  let path := titlePartsOf story in
  buildMarkdownForStory story content last
  = renderHeadings (segmentHeadings path last)
    ++ heading (length path + 1) (storyNameOf story)
    ++ contentSections (length path + 1) content
  /\ Forall (fun h => fst h <= length path) (segmentHeadings path last)
  /\ (forall name, story_name story = Some name -> name <> [] ->
        storyNameOf story = name)
  /\ (story_name story = None \/ story_name story = Some [] ->
        storyNameOf story = story_id story).
Proof.
  intros path. split; [apply buildMarkdownForStory_sections|]. split.
  - eapply Forall_impl; [|apply (proj2 (segmentHeadings_bounds path last))].
    simpl; intros h Hh; lia.
  - unfold storyNameOf. split.
    + intros name Hn Hne. rewrite Hn. simpl. now destruct name.
    + intros [Hn | Hn]; now rewrite Hn.
Qed.

(** The leaf text of a story named "Primary". *)
Lemma leaf_heading_exactly_once_witness :
  let story := mkStory (lit "components-button--primary")
                       (Some (lit "Components/Button")) (Some (lit "Primary")) in
  story_name story = Some (lit "Primary") /\ lit "Primary" <> []
  /\ storyNameOf story = lit "Primary".
Proof.
  intros story. split; [reflexivity|]. split; [discriminate|].
  apply (proj1 (proj2 (proj2 (leaf_heading_exactly_once story (mkContent [] []) []))));
    [reflexivity | discriminate].
Defined.

(** ** Tables *)

(** C3: a table with neither headers nor rows still gets its "Props table N"
    heading; only the rows of the table are skipped, because the heading is
    appended before the guard on the header count. *)
Theorem empty_table_heading_still_emitted : forall level md idx,
  emitTable level md (mkTable [] []) idx
  = md ++ heading (level + 1) (lit "Props table " ++ decimal (idx + 1))
  /\ buildMarkdownForStory
       (mkStory (lit "button--primary") (Some (lit "Button")) (Some (lit "Primary")))
       (mkContent [] [mkTable [] []]) []
     = lit "# Button" ++ [LF; LF] ++ lit "## Primary" ++ [LF; LF]
       ++ lit "### Props table 1" ++ [LF; LF].
Proof.
  intros level md idx. split.
  - now apply emitTable_skipped.
  - vm_compute. reflexivity.
Qed.

(** C7: in an emitted table (one with at least one header, given or
    synthesized) every row is written with empty cells appended up to the
    header count, so a shorter row gets exactly the header count of cells
    and a row at or above it is written unchanged. *)
Theorem rows_padded_to_header_count level md table idx :
  effectiveHeaders table <> [] ->
  let hs := effectiveHeaders table in
  emitTable level md table idx
  = md ++ heading (level + 1) (lit "Props table " ++ decimal (idx + 1))
    ++ rowLine hs ++ separatorLine hs
    ++ flat_map (fun row => rowLine (row ++ List.repeat [] (length hs - length row)))
                (rows table)
    ++ [LF]
  /\ (forall row : list jsstring, length row < length hs ->
        length (row ++ List.repeat [] (length hs - length row)) = length hs)
  /\ (forall row : list jsstring, length hs <= length row ->
        row ++ List.repeat [] (length hs - length row) = row).
Proof.
  intros H hs. split; [|split].
  - now apply emitTable_emitted.
  - intros row Hrow. rewrite length_app, repeat_length. lia.
  - intros row Hrow. now apply padTo_wide.
Qed.

(** Headers Name, Type and the row x: the row is written as [| x |  |]. *)
Lemma rows_padded_to_header_count_witness :
  let table := mkTable [lit "Name"; lit "Type"] [[lit "x"]] in
  effectiveHeaders table <> []
  /\ emitTable 2 [] table 0
     = lit "### Props table 1" ++ [LF; LF]
       ++ lit "| Name | Type |" ++ [LF]
       ++ lit "| --- | --- |" ++ [LF]
       ++ lit "| x |  |" ++ [LF]
       ++ [LF].
Proof.
  intros table.
  assert (H : effectiveHeaders table <> []) by (vm_compute; discriminate).
  split; [exact H|].
  rewrite (proj1 (rows_padded_to_header_count 2 [] table 0 H)).
  vm_compute. reflexivity.
Defined.







(** ** The driver *)

Lemma filter_nil_existsb (A : Type) (f : A -> bool) (l : list A) :
  filter f l = [] <-> existsb f l = false.
Proof.
  induction l as [|x l IH]; simpl; [tauto|].
  destruct (f x); simpl; [split; discriminate | exact IH].
Qed.

Lemma filter_fixed_forallb (A : Type) (f : A -> bool) (l : list A) :
  l = filter f l <-> forallb f l = true.
Proof.
  induction l as [|x l IH]; simpl; [tauto|].
  destruct (f x) eqn:E; simpl.
  - rewrite <- IH. split; congruence.
  - split; [|discriminate]. intros H.
    pose proof (filter_length_le f l) as Hle.
    apply (f_equal (@length _)) in H. simpl in H. lia.
Qed.

Lemma forallb_truthy_no_empty (raw : list jsstring) :
  forallb truthy raw = true <-> ~ In [] raw.
Proof.
  rewrite forallb_forall. split.
  - intros H Hin. now apply H in Hin.
  - intros H seg Hin. destruct seg; [contradiction | reflexivity].
Qed.

Lemma segsFrom_filtered_nil : forall raw level,
  segsFrom level (filter truthy raw) raw = [] <-> emptyBeforeNonEmpty raw = false.
Proof.
  induction raw as [|seg r IH]; intros level; simpl; [tauto|].
  destruct seg as [|c seg]; simpl.
  - rewrite <- filter_nil_existsb.
    destruct (filter truthy r) as [|p ps] eqn:E; simpl; [tauto|].
    assert (Hp : truthy p = true).
    { assert (Hin : In p (filter truthy r)) by (rewrite E; now left).
      now apply filter_In in Hin. }
    destruct p; [discriminate|]. simpl. split; discriminate.
  - rewrite jsstring_eqb_refl. simpl. apply IH.
Qed.

Lemma titlePartsOf_titled id title name :
  titlePartsOf (mkStory id (Some title) name) = filter truthy (split SLASH title).
Proof. unfold titlePartsOf. simpl. now destruct title. Qed.

Section DriverProperties.

Variable Page : Type.
Variable evaluateContent : Page -> Content.

Lemma storiesLoop_loaded_only : forall stories st,
  storiesLoop evaluateContent stories st
  = storiesLoop evaluateContent (filter (@loaded Page) stories) st.
Proof.
  induction stories as [|[story [page|]] rest IH]; intros st; simpl.
  - reflexivity.
  - destruct (story_title story); [apply IH | reflexivity].
  - apply IH.
Qed.

(** C2 (amended): a story whose page load fails is skipped as a whole.
    The story loop neither writes anything for it nor moves the cursor, so
    the loop over a manifest ends as the loop over the stories that loaded
    does; for a story that loaded and has a title the cursor is set, once,
    to the raw split of the title. *)
Theorem failed_load_skips_story stories st :
  (forall story, loopBody evaluateContent st story None = Normal st)
  /\ storiesLoop evaluateContent stories st
     = storiesLoop evaluateContent (filter (@loaded Page) stories) st
  /\ (forall story page title,
        story_title story = Some title ->
        loopBody evaluateContent st story (Some page)
        = Normal (mkLoopState
                    (markdown st
                     ++ buildMarkdownForStory story (evaluateContent page)
                          (lastTitleParts st))
                    (split SLASH title))).
Proof.
  split; [reflexivity|]. split; [apply storiesLoop_loaded_only|].
  intros story page title H. unfold loopBody. now rewrite H.
Qed.

(** C9: a story without a title gets through [buildMarkdownForStory],
    which guards the field ([story.title || '']) and writes the single
    level-1 leaf heading, but the loop then splits the unguarded
    [story.title]: the run aborts and no document is written. *)
Theorem missing_title_aborts_run st id name page :
  let story := mkStory id None name in
  titlePartsOf story = []
  /\ buildMarkdownForStory story (mkContent [] []) (lastTitleParts st)
     = heading 1 (or_else name id)
  /\ loopBody evaluateContent st story (Some page) = Throw
  /\ (forall argv2 rest,
        main evaluateContent argv2 ((story, Some page) :: rest) = Exit1).
Proof.
  intros story. split; [reflexivity|]. split; [|split].
  - rewrite buildMarkdownForStory_sections. cbn. now rewrite app_nil_r.
  - reflexivity.
  - intros argv2 rest. unfold main.
    destruct (negb (truthy (dropTrailingSlash argv2))); reflexivity.
Qed.

(** C10 (amended): after a story the cursor is the raw split of its
    title, while the next comparison uses the split without its empty
    segments; the two are equal exactly when the split has no empty
    segment; and a story with the same path that follows re-emits
    path-segment headings exactly when an empty segment of the title
    stands before a non-empty one: exactly then the title loop adds text,
    and exactly then the text of the story is more than its leaf heading
    and content sections. *)
Theorem cursor_keeps_empty_segments st id title name page :
  let story := mkStory id (Some title) name in
  let raw := split SLASH title in
  loopBody evaluateContent st story (Some page)
  = Normal (mkLoopState
              (markdown st
               ++ buildMarkdownForStory story (evaluateContent page)
                    (lastTitleParts st))
              raw)
  /\ titlePartsOf story = filter truthy raw
  /\ (raw = filter truthy raw <-> ~ In [] raw)
  /\ (forall next,
        titlePartsOf next = titlePartsOf story ->
        (segmentHeadings (titlePartsOf next) raw <> []
         <-> emptyBeforeNonEmpty raw = true)
        /\ (forall md,
              headingLoop (titlePartsOf next) raw md <> md
              <-> emptyBeforeNonEmpty raw = true)
        /\ (forall content,
              buildMarkdownForStory next content raw
              <> heading (length (titlePartsOf next) + 1) (storyNameOf next)
                 ++ contentSections (length (titlePartsOf next) + 1) content
              <-> emptyBeforeNonEmpty raw = true)).
Proof.
  intros story raw. split; [reflexivity|].
  split; [apply titlePartsOf_titled|].
  split; [now rewrite filter_fixed_forallb, forallb_truthy_no_empty|].
  intros next Hnext.
  assert (Hs : segmentHeadings (titlePartsOf next) raw <> []
               <-> emptyBeforeNonEmpty raw = true).
  { rewrite Hnext. unfold story.
    rewrite titlePartsOf_titled, segmentHeadings_segsFrom.
    fold raw. rewrite (segsFrom_filtered_nil raw 1).
    now destruct (emptyBeforeNonEmpty raw). }
  split; [exact Hs|]. split.
  - intros md. now rewrite headingLoop_unchanged_iff.
  - intros content. now rewrite buildMarkdownForStory_leaf_only_iff.
Qed.

End DriverProperties.

(** C2, as stated, fails: when the page of a story does not load, the
    document gets no heading for it and the cursor stays where it was. *)
Lemma failed_load_emits_no_heading :
  let story := mkStory (lit "components-button--primary")
                       (Some (lit "Components/Button")) (Some (lit "Primary")) in
  let st := mkLoopState (preamble (lit "http://sb")) [] in
  loopBody ScrapeStorybook.evaluateContent st story None = Normal st
  /\ markdown st
     <> preamble (lit "http://sb")
        ++ buildMarkdownForStory story (mkContent [] []) []
  /\ lastTitleParts st <> titlePartsOf story
  /\ main ScrapeStorybook.evaluateContent (lit "http://sb/") [(story, None)]
     = Written (preamble (lit "http://sb")).
Proof. vm_compute. repeat split; discriminate. Qed.

(** A story that loads sets the cursor to the split of its title. *)
Lemma failed_load_skips_story_witness :
  let story := mkStory (lit "components-button--primary")
                       (Some (lit "Components/Button")) (Some (lit "Primary")) in
  let page := ScrapeStorybook.mkPage [] [] in
  let st := mkLoopState (preamble (lit "http://sb")) [] in
  story_title story = Some (lit "Components/Button")
  /\ loopBody ScrapeStorybook.evaluateContent st story (Some page)
     = Normal (mkLoopState
                 (preamble (lit "http://sb")
                  ++ lit "# Components" ++ [LF; LF] ++ lit "## Button" ++ [LF; LF]
                  ++ lit "### Primary" ++ [LF; LF])
                 [lit "Components"; lit "Button"]).
Proof.
  intros story page st. split; [reflexivity|].
  rewrite (proj2 (proj2 (failed_load_skips_story
                           ScrapeStorybook.evaluateContent [] st))
             story page (lit "Components/Button") eq_refl).
  vm_compute. reflexivity.
Defined.

(** C10, as stated, fails for an empty segment at the end of the title:
    after [A/] a story with the same path compares its only segment at the
    right index and re-emits nothing. *)
Lemma trailing_empty_segment_not_reemitted :
  let raw := split SLASH (lit "A/") in
  let next := mkStory (lit "a--t") (Some (lit "A")) (Some (lit "T")) in
  In [] raw
  /\ titlePartsOf next = filter truthy raw
  /\ segmentHeadings (titlePartsOf next) raw = []
  /\ buildMarkdownForStory next (mkContent [] []) raw = lit "## T" ++ [LF; LF].
Proof. vm_compute. repeat split. right; left; reflexivity. Qed.

(** After [A//B] the story [A/B] has the same path and re-emits a heading. *)
Lemma cursor_keeps_empty_segments_witness :
  let story := mkStory (lit "a-b--s") (Some (lit "A//B")) (Some (lit "S")) in
  let next := mkStory (lit "a-b--t") (Some (lit "A/B")) (Some (lit "T")) in
  let raw := split SLASH (lit "A//B") in
  titlePartsOf next = titlePartsOf story
  /\ raw = [lit "A"; []; lit "B"]
  /\ emptyBeforeNonEmpty raw = true
  /\ segmentHeadings (titlePartsOf next) raw <> []
  /\ headingLoop (titlePartsOf next) raw [] <> []
  /\ buildMarkdownForStory next (mkContent [] []) raw
     <> heading 3 (lit "T") ++ contentSections 3 (mkContent [] [])
  /\ buildMarkdownForStory next (mkContent [] []) raw
     = lit "## B" ++ [LF; LF] ++ lit "### T" ++ [LF; LF].
Proof.
  intros story next raw.
  assert (H : titlePartsOf next = titlePartsOf story) by reflexivity.
  split; [exact H|]. split; [reflexivity|]. split; [reflexivity|].
  destruct (cursor_keeps_empty_segments ScrapeStorybook.evaluateContent
              (mkLoopState [] []) (lit "a-b--s") (lit "A//B")
              (Some (lit "S")) (ScrapeStorybook.mkPage [] []))
    as (_ & _ & _ & Hnext).
  destruct (Hnext next H) as (Hs & Hl & Hb).
  split; [apply Hs; reflexivity|].
  split; [apply (Hl []); reflexivity|].
  split; [apply (Hb (mkContent [] [])); reflexivity|].
  vm_compute. reflexivity.
Defined.

(** ** Code text normalization ([normalizeCode] of part_000) *)

Lemma afterRun_length (s : jsstring) :
  length (Part000.afterRun s) <= length s.
Proof.
  induction s as [|c r IH]; simpl; [lia|].
  destruct (Part000.isSpaceOrTab c); simpl; lia.
Qed.

Lemma afterRun_head (s : jsstring) d rest :
  Part000.afterRun s = d :: rest -> Part000.isSpaceOrTab d = false.
Proof.
  induction s as [|c r IH]; simpl; [discriminate|].
  destruct (Part000.isSpaceOrTab c) eqn:E; [exact IH|].
  intros H. injection H as -> _. exact E.
Qed.

Lemma LF_not_blank : Part000.isSpaceOrTab LF = false.
Proof. reflexivity. Qed.

Lemma startsNewline_head (s : jsstring) :
  startsNewline s = true -> exists rest, s = LF :: rest.
Proof.
  destruct s as [|d rest]; simpl; [discriminate|].
  intros H. apply N.eqb_eq in H. subst d. now exists rest.
Qed.

(** A run of blanks that ends at a newline goes as a whole. *)
Lemma dropBeforeNewline_run : forall s rest,
  Part000.afterRun s = LF :: rest ->
  dropBeforeNewline s = LF :: dropBeforeNewline rest.
Proof.
  induction s as [|c r IH]; intros rest H; simpl in *; [discriminate|].
  destruct (Part000.isSpaceOrTab c) eqn:E; simpl.
  - rewrite H. simpl. now apply IH.
  - injection H as -> ->. reflexivity.
Qed.

Lemma matchRunNewline_Some (s rest : jsstring) :
  Part000.matchRunNewline s = Some rest ->
  length rest < length s
  /\ dropBeforeNewline s = LF :: dropBeforeNewline rest.
Proof.
  destruct s as [|c r]; simpl; [discriminate|].
  destruct (Part000.isSpaceOrTab c) eqn:E; [|discriminate].
  destruct (Part000.afterRun r) as [|d tl] eqn:A; [discriminate|].
  destruct (N.eqb d LF) eqn:D; [|discriminate].
  apply N.eqb_eq in D. subst d. intros H. injection H as <-.
  pose proof (afterRun_length r) as L. rewrite A in L. simpl in L.
  split; [lia|]. simpl. now apply dropBeforeNewline_run.
Qed.

Lemma matchRunNewline_None c (r : jsstring) :
  Part000.matchRunNewline (c :: r) = None ->
  dropBeforeNewline (c :: r) = c :: dropBeforeNewline r.
Proof.
  simpl. destruct (Part000.isSpaceOrTab c); [|reflexivity].
  destruct (Part000.afterRun r) as [|d tl]; [reflexivity|]. simpl.
  now destruct (N.eqb d LF).
Qed.

(** The scan has fuel to spare with the length of the text. *)
Lemma replaceRunNewline_enough : forall fuel s,
  length s <= fuel -> Part000.replaceRunNewline fuel s = dropBeforeNewline s.
Proof.
  induction fuel as [|fuel IH]; intros s Hs.
  - destruct s; [reflexivity | simpl in Hs; lia].
  - destruct s as [|c r]; [reflexivity|].
    cbn [Part000.replaceRunNewline].
    destruct (Part000.matchRunNewline (c :: r)) as [rest|] eqn:M.
    + apply matchRunNewline_Some in M as [L ->].
      rewrite IH by (simpl in *; lia). reflexivity.
    + rewrite (matchRunNewline_None _ _ M), IH by (simpl in *; lia).
      reflexivity.
Qed.

Lemma afterRun_dropBeforeNewline : forall s,
  Part000.afterRun (dropBeforeNewline s) = dropBeforeNewline (Part000.afterRun s).
Proof.
  induction s as [|c r IH]; [reflexivity|]. simpl.
  destruct (Part000.isSpaceOrTab c) eqn:E; simpl.
  - destruct (startsNewline (Part000.afterRun r)); simpl; [exact IH|].
    now rewrite E.
  - now rewrite E.
Qed.

Lemma afterRun_nil_all : forall s,
  Part000.afterRun s = [] ->
  dropBeforeNewline s = s /\ dropTrailingBlanks s = []
  /\ Part000.replaceRunEnd s = [].
Proof.
  induction s as [|c r IH]; simpl; intros H; [auto|].
  destruct (Part000.isSpaceOrTab c) eqn:E; [|discriminate].
  destruct (IH H) as (H1 & H2 & H3). rewrite H. simpl.
  now rewrite H1.
Qed.

Lemma replaceRunEnd_dropBeforeNewline : forall s,
  Part000.replaceRunEnd (dropBeforeNewline s) = dropTrailingBlanks s.
Proof.
  induction s as [|c r IH]; [reflexivity|]. simpl.
  destruct (Part000.isSpaceOrTab c) eqn:E; simpl.
  - destruct (Part000.afterRun r) as [|d tl] eqn:A; simpl.
    + destruct (afterRun_nil_all r A) as (H1 & H2 & H3).
      rewrite H1, E, A, H2. reflexivity.
    + destruct (N.eqb d LF) eqn:D; [exact IH|]. simpl.
      rewrite E, afterRun_dropBeforeNewline, A. simpl.
      pose proof (afterRun_head r A) as Hd. rewrite Hd. simpl.
      now rewrite IH.
  - rewrite E. simpl. now rewrite IH.
Qed.

Lemma normalizeCode_refines (s : jsstring) :
  Part000.normalizeCode s
  = dropTrailingBlanks (Part000.replaceCrLf (replaceNbsp s)).
Proof.
  unfold Part000.normalizeCode. destruct s as [|c r]; [reflexivity|].
  cbn [truthy negb].
  now rewrite replaceRunNewline_enough, replaceRunEnd_dropBeforeNewline by lia.
Qed.

Lemma dropTrailingBlanks_kept_head (r : jsstring) d rest :
  Part000.afterRun r = d :: rest -> N.eqb d LF = false ->
  atBreak (dropTrailingBlanks r) = false.
Proof.
  destruct r as [|c r']; simpl; [discriminate|].
  destruct (Part000.isSpaceOrTab c) eqn:E; simpl.
  - intros A D. rewrite A. simpl. rewrite D. simpl.
    destruct (N.eqb c LF) eqn:C; [|reflexivity].
    apply N.eqb_eq in C. subst c. discriminate.
  - intros A D. injection A as -> _. exact D.
Qed.

Lemma dropTrailingBlanks_clean : forall s,
  blankBeforeBreak (dropTrailingBlanks s) = false.
Proof.
  induction s as [|c r IH]; [reflexivity|]. simpl.
  destruct (Part000.isSpaceOrTab c) eqn:E; simpl.
  - destruct (Part000.afterRun r) as [|d tl] eqn:A; simpl; [exact IH|].
    destruct (N.eqb d LF) eqn:D; [exact IH|]. simpl.
    now rewrite E, (dropTrailingBlanks_kept_head r A D), IH.
  - now rewrite E, IH.
Qed.

Lemma clean_afterRun : forall s,
  blankBeforeBreak s = false ->
  atBreak (Part000.afterRun s) = atBreak s.
Proof.
  induction s as [|c r IH]; [reflexivity|]. simpl.
  destruct (Part000.isSpaceOrTab c) eqn:E; simpl; [|reflexivity].
  intros H. apply orb_false_iff in H as [H1 H2].
  rewrite (IH H2), H1.
  destruct (N.eqb c LF) eqn:C; [|reflexivity].
  apply N.eqb_eq in C. subst c. discriminate.
Qed.

Lemma dropTrailingBlanks_fixed : forall s,
  blankBeforeBreak s = false -> dropTrailingBlanks s = s.
Proof.
  induction s as [|c r IH]; [reflexivity|]. simpl.
  intros H. apply orb_false_iff in H as [H1 H2].
  rewrite (clean_afterRun r H2), H1, (IH H2). reflexivity.
Qed.

Lemma dropTrailingBlanks_keeps_others : forall s,
  filter notBlank (dropTrailingBlanks s) = filter notBlank s.
Proof.
  induction s as [|c r IH]; [reflexivity|]. simpl. unfold notBlank at 2.
  destruct (Part000.isSpaceOrTab c) eqn:E; simpl.
  - destruct (atBreak (Part000.afterRun r)); simpl; [exact IH|].
    unfold notBlank at 1. now rewrite E.
  - unfold notBlank at 1. now rewrite E, IH.
Qed.

(** Blanks in front of a character other than a blank or a newline stay. *)
Lemma dropTrailingBlanks_leading : forall run c rest,
  forallb Part000.isSpaceOrTab run = true ->
  Part000.isSpaceOrTab c = false -> N.eqb c LF = false ->
  dropTrailingBlanks (run ++ c :: rest) = run ++ c :: dropTrailingBlanks rest.
Proof.
  induction run as [|b run IH]; intros c rest Hrun Hc Hlf; simpl.
  - now rewrite Hc.
  - simpl in Hrun. apply andb_true_iff in Hrun as [Hb Hrun].
    rewrite Hb, (IH c rest Hrun Hc Hlf). simpl.
    assert (A : Part000.afterRun (run ++ c :: rest) = c :: rest).
    { clear IH. induction run as [|b' run IH']; simpl.
      - now rewrite Hc.
      - simpl in Hrun. apply andb_true_iff in Hrun as [Hb' Hrun].
        rewrite Hb'. now apply IH'. }
    rewrite A. simpl. now rewrite Hlf.
Qed.

Lemma replaceNbsp_id : forall s, ~ In NBSP s -> replaceNbsp s = s.
Proof.
  induction s as [|c r IH]; [reflexivity|]. simpl. intros H.
  destruct (N.eqb c NBSP) eqn:E.
  - apply N.eqb_eq in E. subst c. exfalso. apply H. now left.
  - f_equal. apply IH. intros Hin. apply H. now right.
Qed.

Lemma replaceCrLf_id : forall s, ~ In CR s -> Part000.replaceCrLf s = s.
Proof.
  induction s as [|c r IH]; [reflexivity|]. intros H.
  assert (Hr : ~ In CR r) by (intros Hin; apply H; now right).
  specialize (IH Hr). cbn [Part000.replaceCrLf].
  destruct r as [|d r']; [reflexivity|].
  destruct (N.eqb c CR) eqn:E.
  - apply N.eqb_eq in E. subst c. exfalso. apply H. now left.
  - cbn [andb]. now rewrite IH.
Qed.

(** C5, as stated, fails: a no-break space inside the text becomes a plain
    space and a CR LF pair becomes LF, although neither text has a space or
    tab before a newline or at its end; a newline at the very end stays. *)
Lemma normalizeCode_rewrites_nbsp_and_crlf :
  let s1 := lit "a" ++ [NBSP] ++ lit "b" in
  let s2 := lit "a" ++ [CR; LF] ++ lit "b" in
  blankBeforeBreak s1 = false
  /\ Part000.normalizeCode s1 = lit "a b"
  /\ Part000.normalizeCode s1 <> s1
  /\ blankBeforeBreak s2 = false
  /\ Part000.normalizeCode s2 = lit "a" ++ [LF] ++ lit "b"
  /\ Part000.normalizeCode s2 <> s2
  /\ Part000.normalizeCode (lit "a" ++ [LF]) = lit "a" ++ [LF].
Proof. vm_compute. repeat split; discriminate. Qed.

Lemma replaceNbsp_In (s : jsstring) c :
  In c (replaceNbsp s) -> c <> NBSP /\ (In c s \/ c = SPACE).
Proof.
  unfold replaceNbsp. intros H. apply in_map_iff in H as (d & E & Hd).
  destruct (N.eqb d NBSP) eqn:D.
  - subst c. split; [discriminate | now right].
  - apply N.eqb_neq in D. subst c. split; [exact D | now left].
Qed.

Lemma dropTrailingBlanks_In : forall (s : jsstring) c,
  In c (dropTrailingBlanks s) -> In c s.
Proof.
  induction s as [|d r IH]; intros c; simpl; [tauto|].
  destruct (Part000.isSpaceOrTab d && atBreak (Part000.afterRun r))%bool;
    simpl; intros H.
  - right. now apply IH.
  - destruct H as [H|H]; [now left | right; now apply IH].
Qed.

Lemma replaceCrLf_dropCr_bounded : forall n (s : jsstring),
  length s <= n -> Part000.replaceCrLf s = dropCrBeforeLf s.
Proof.
  induction n as [|n IH]; intros s Hs.
  - destruct s; [reflexivity | simpl in Hs; lia].
  - destruct s as [|c [|d r]]; [reflexivity | |].
    + simpl. now rewrite andb_false_r.
    + cbn [Part000.replaceCrLf dropCrBeforeLf startsNewline].
      simpl in Hs. destruct (N.eqb c CR && N.eqb d LF)%bool eqn:E.
      * apply andb_true_iff in E as [_ E]. apply N.eqb_eq in E. subst d.
        simpl. now rewrite IH by lia.
      * f_equal. apply (IH (d :: r)). simpl. lia.
Qed.

Lemma replaceCrLf_dropCr (s : jsstring) :
  Part000.replaceCrLf s = dropCrBeforeLf s.
Proof. now apply (@replaceCrLf_dropCr_bounded (length s)). Qed.

Lemma dropCrBeforeLf_In : forall (s : jsstring) c,
  In c (dropCrBeforeLf s) -> In c s.
Proof.
  induction s as [|d r IH]; intros c; simpl; [tauto|].
  destruct (N.eqb d CR && startsNewline r)%bool; simpl; intros H.
  - right. now apply IH.
  - destruct H as [H|H]; [now left | right; now apply IH].
Qed.

Lemma blank_is_plain c :
  Part000.isSpaceOrTab c = true -> N.eqb c NBSP = false /\ N.eqb c CR = false.
Proof.
  unfold Part000.isSpaceOrTab. intros H. apply orb_true_iff in H as [H|H];
    apply N.eqb_eq in H; subst c; now split.
Qed.

Lemma verbatimChar_dropTrailingBlanks : forall s,
  filter verbatimChar (dropTrailingBlanks s) = filter verbatimChar s.
Proof.
  induction s as [|c r IH]; [reflexivity|]. simpl. unfold verbatimChar at 2.
  destruct (Part000.isSpaceOrTab c) eqn:E; simpl.
  - destruct (atBreak (Part000.afterRun r)); simpl; [exact IH|].
    unfold verbatimChar at 1. now rewrite E.
  - unfold verbatimChar at 1. rewrite E. simpl. now rewrite IH.
Qed.

Lemma verbatimChar_dropCrBeforeLf : forall s,
  filter verbatimChar (dropCrBeforeLf s) = filter verbatimChar s.
Proof.
  induction s as [|c r IH]; [reflexivity|]. simpl. unfold verbatimChar at 2.
  destruct (N.eqb c CR) eqn:E; simpl.
  - rewrite !orb_true_r. simpl.
    destruct (startsNewline r); simpl; [exact IH|].
    unfold verbatimChar at 1. rewrite E, !orb_true_r. exact IH.
  - unfold verbatimChar at 1. rewrite E. now rewrite IH.
Qed.

Lemma verbatimChar_replaceNbsp : forall s,
  filter verbatimChar (replaceNbsp s) = filter verbatimChar s.
Proof.
  induction s as [|c r IH]; [reflexivity|]. simpl.
  destruct (N.eqb c NBSP) eqn:E.
  - apply N.eqb_eq in E. subst c. exact IH.
  - now rewrite IH.
Qed.

Lemma replaceNbsp_blank_run : forall run,
  forallb Part000.isSpaceOrTab run = true -> replaceNbsp run = run.
Proof.
  induction run as [|b run IH]; [reflexivity|]. simpl. intros H.
  apply andb_true_iff in H as [Hb H].
  destruct (blank_is_plain b Hb) as [-> _]. now rewrite IH.
Qed.

Lemma replaceNbsp_app_cons (run : jsstring) c rest :
  replaceNbsp (run ++ c :: rest)
  = replaceNbsp run ++ (if N.eqb c NBSP then SPACE else c) :: replaceNbsp rest.
Proof. unfold replaceNbsp. now rewrite map_app. Qed.

Lemma dropCrBeforeLf_leading : forall run c rest,
  forallb Part000.isSpaceOrTab run = true -> N.eqb c CR = false ->
  dropCrBeforeLf (run ++ c :: rest) = run ++ c :: dropCrBeforeLf rest.
Proof.
  induction run as [|b run IH]; intros c rest H Hc; simpl.
  - now rewrite Hc.
  - simpl in H. apply andb_true_iff in H as [Hb H].
    destruct (blank_is_plain b Hb) as [_ ->]. simpl. now rewrite IH.
Qed.

Lemma normalizeCode_passes (s : jsstring) :
  Part000.normalizeCode s
  = dropTrailingBlanks (dropCrBeforeLf (replaceNbsp s)).
Proof. now rewrite normalizeCode_refines, replaceCrLf_dropCr. Qed.

(** C5 (amended): [normalizeCode] gives the text in which every no-break
    space has become a space and every CR LF pair an LF, and from which then
    exactly the spaces and tabs that trail before a newline or at the very
    end have been removed.  So the result holds no no-break space and no
    such blank; every character other than space, tab, no-break space and
    CR is kept in order; blanks leading up to such a character that is not a
    newline are kept; and a text free of no-break spaces and CR with no
    trailing blank is returned unchanged. *)
Theorem normalizeCode_trims_trailing_blanks_only (s : jsstring) :
  Part000.normalizeCode s
  = dropTrailingBlanks
      (dropCrBeforeLf
         (List.map (fun c => if N.eqb c NBSP then SPACE else c) s))
  /\ ~ In NBSP (Part000.normalizeCode s)
  /\ blankBeforeBreak (Part000.normalizeCode s) = false
  /\ filter verbatimChar (Part000.normalizeCode s) = filter verbatimChar s
  /\ (forall run c rest,
        s = run ++ c :: rest ->
        forallb Part000.isSpaceOrTab run = true ->
        verbatimChar c = true -> N.eqb c LF = false ->
        Part000.normalizeCode s = run ++ c :: Part000.normalizeCode rest)
  /\ (~ In NBSP s -> ~ In CR s ->
        Part000.normalizeCode s = dropTrailingBlanks s
        /\ filter notBlank (Part000.normalizeCode s) = filter notBlank s
        /\ (blankBeforeBreak s = false -> Part000.normalizeCode s = s)
        /\ (forall run c rest,
              s = run ++ c :: rest ->
              forallb Part000.isSpaceOrTab run = true ->
              Part000.isSpaceOrTab c = false -> N.eqb c LF = false ->
              Part000.normalizeCode s = run ++ c :: Part000.normalizeCode rest)).
Proof.
  split; [apply normalizeCode_passes|]. split; [|split; [|split; [|split]]].
  - rewrite normalizeCode_passes. intros H.
    apply dropTrailingBlanks_In, dropCrBeforeLf_In, replaceNbsp_In in H.
    now destruct H.
  - rewrite normalizeCode_passes. apply dropTrailingBlanks_clean.
  - rewrite normalizeCode_passes, verbatimChar_dropTrailingBlanks,
      verbatimChar_dropCrBeforeLf. apply verbatimChar_replaceNbsp.
  - intros run c rest -> Hrun Hv Hlf.
    unfold verbatimChar in Hv. apply negb_true_iff in Hv.
    apply orb_false_iff in Hv as [Hv Hcr].
    apply orb_false_iff in Hv as [Hb Hn].
    rewrite !normalizeCode_passes, replaceNbsp_app_cons, Hn.
    rewrite (replaceNbsp_blank_run run Hrun).
    etransitivity.
    + apply (f_equal dropTrailingBlanks).
      now apply dropCrBeforeLf_leading.
    + now apply dropTrailingBlanks_leading.
  - intros Hn Hc.
    assert (E : Part000.normalizeCode s = dropTrailingBlanks s).
    { now rewrite normalizeCode_refines, replaceNbsp_id, replaceCrLf_id. }
    split; [exact E|]. rewrite E. split; [apply dropTrailingBlanks_keeps_others|].
    split; [apply dropTrailingBlanks_fixed|].
    intros run c rest -> Hrun Hcb Hlf.
    rewrite dropTrailingBlanks_leading by assumption.
    rewrite normalizeCode_refines, replaceNbsp_id, replaceCrLf_id; [reflexivity| |].
    + intros Hin. apply Hc. apply in_or_app. right. now right.
    + intros Hin. apply Hn. apply in_or_app. right. now right.
Qed.

(** Indentation and inner double spaces stay, trailing blanks go; a
    no-break space and a CR LF pair are rewritten first. *)
Lemma normalizeCode_trims_trailing_blanks_only_witness :
  let s := lit "  if (x) {  " ++ [LF] ++ lit "    y  =  1;" ++ [TAB; LF] ++ lit "  } " in
  let t := lit "a" ++ [NBSP; CR; LF] ++ lit " b" ++ [NBSP] in
  ~ In NBSP s /\ ~ In CR s
  /\ Part000.normalizeCode s
     = lit "  if (x) {" ++ [LF] ++ lit "    y  =  1;" ++ [LF] ++ lit "  }"
  /\ Part000.normalizeCode s = dropTrailingBlanks s
  /\ Part000.normalizeCode t = lit "a" ++ [LF] ++ lit " b".
Proof.
  intros s t.
  assert (Hn : ~ In NBSP s).
  { vm_compute. intuition discriminate. }
  assert (Hc : ~ In CR s).
  { vm_compute. intuition discriminate. }
  split; [exact Hn|]. split; [exact Hc|].
  destruct (normalizeCode_trims_trailing_blanks_only s) as (_ & _ & _ & _ & _ & H).
  destruct (H Hn Hc) as (E & _). split; [vm_compute; reflexivity|].
  split; [exact E|].
  rewrite (proj1 (normalizeCode_trims_trailing_blanks_only t)).
  vm_compute. reflexivity.
Defined.

(** ** Duplicate code blocks *)

Lemma keepFirst_In (l : list jsstring) t : In t (keepFirst l) <-> In t l.
Proof. unfold keepFirst. now rewrite <- in_rev, nodup_In, <- in_rev. Qed.

Lemma keepFirst_snoc (l : list jsstring) t :
  keepFirst (l ++ [t]) = if in_dec jsstring_eq_dec t l then keepFirst l
                         else keepFirst l ++ [t].
Proof.
  unfold keepFirst. rewrite rev_app_distr. simpl.
  destruct (in_dec jsstring_eq_dec t (rev l)) as [Hin|Hin];
    destruct (in_dec jsstring_eq_dec t l) as [Hin'|Hin']; try reflexivity.
  - exfalso. apply Hin'. now apply in_rev.
  - exfalso. apply Hin. now apply in_rev in Hin'.
Qed.

Lemma existsb_jsstring_In t (l : list jsstring) :
  existsb (jsstring_eqb t) l = true <-> In t l.
Proof.
  rewrite existsb_exists. split.
  - intros (x & Hin & E). apply jsstring_eqb_eq in E. now subst x.
  - intros Hin. exists t. split; [exact Hin | apply jsstring_eqb_refl].
Qed.

Lemma or_else_some_nil (s : jsstring) : or_else (Some s) [] = s.
Proof. now destruct s. Qed.

Lemma collected_invariant : forall els,
  let acc := fold_left Part000.addCodeBlockFromElement els
               (Part000.mkCollected [] []) in
  Part000.seenCode acc = List.map code (Part000.collectedBlocks acc)
  /\ List.map code (Part000.collectedBlocks acc) = keepFirst (candidateTexts els).
Proof.
  induction els as [|el els IH] using rev_ind; [now split|].
  cbv zeta in *. rewrite fold_left_app. cbn [fold_left].
  set (acc := fold_left _ els _) in *. destruct IH as [Hseen Hcode].
  unfold candidateTexts in *. rewrite map_app, filter_app. cbn [List.map filter].
  unfold Part000.addCodeBlockFromElement. cbv zeta.
  rewrite or_else_some_nil.
  set (text := Part000.normalizeCode (textContent el)).
  destruct (truthy text) eqn:T; cbn [negb].
  - rewrite keepFirst_snoc, <- Hcode, <- Hseen.
    destruct (existsb (jsstring_eqb text) (Part000.seenCode acc)) eqn:X.
    + apply existsb_jsstring_In in X.
      rewrite Hseen, Hcode, keepFirst_In in X.
      destruct (in_dec _ _ _); [now split | contradiction].
    + assert (Hnot : ~ In text (Part000.seenCode acc)).
      { intros Hin. apply existsb_jsstring_In in Hin. congruence. }
      rewrite Hseen, Hcode, keepFirst_In in Hnot.
      destruct (in_dec _ _ _); [contradiction|].
      cbn [Part000.seenCode Part000.collectedBlocks].
      rewrite map_app. cbn [List.map code]. rewrite Hseen. now split.
  - rewrite app_nil_r. now split.
Qed.

Lemma keepFirst_NoDup (l : list jsstring) : NoDup (keepFirst l).
Proof. unfold keepFirst. apply NoDup_rev, NoDup_nodup. Qed.

(** In the part_000 revision the texts of the extracted blocks are the
    first occurrences of the non-empty normalized candidate texts: no text
    occurs twice and none is lost. *)
Lemma part000_blocks_are_first_occurrences (page : Part000.Page) :
  let texts := candidateTexts (Part000.candidatesOf page) in
  List.map code (Part000.extractCodeBlocks page) = keepFirst texts
  /\ NoDup (List.map code (Part000.extractCodeBlocks page))
  /\ (forall t, In t (List.map code (Part000.extractCodeBlocks page)) <-> In t texts).
Proof.
  intros texts. unfold Part000.extractCodeBlocks.
  destruct (collected_invariant (Part000.candidatesOf page)) as [_ H].
  cbv zeta in H. rewrite H. split; [reflexivity|]. split.
  - apply keepFirst_NoDup.
  - intros t. apply keepFirst_In.
Qed.

(** The sections of the code blocks are numbered 1, 2, ... in order. *)
Lemma codeSection_numbered level block idx :
  codeSection level block idx = codeExample (level) (idx + 1) block.
Proof.
  unfold codeSection, emitCodeBlock, codeExample. cbv zeta.
  rewrite or_else_some_nil. cbn [app]. now rewrite <- !app_assoc.
Qed.

Lemma code_sections_numbered level : forall blocks idx,
  sectionsFrom (codeSection level) blocks idx
  = flat_map (fun p => codeExample level (fst p + 1) (snd p))
             (combine (seq idx (length blocks)) blocks).
Proof.
  induction blocks as [|b bs IH]; intros idx; [reflexivity|].
  cbn [sectionsFrom length seq combine flat_map fst snd].
  now rewrite IH, codeSection_numbered.
Qed.

Lemma part000_duplicates_suppressed :
  let el n (t : string) := mkElement n (lit t) None [] in
  let page := Part000.mkPage [el 1 "a"%string; el 2 "a"%string; el 3 "b"%string] [] [] [] [] [] [] in
  Part000.extractCodeBlocks page = [mkCodeBlock [] (lit "a"); mkCodeBlock [] (lit "b")]
  /\ contentSections 2 (Part000.evaluateContent page)
     = lit "### Code example 1" ++ [LF; LF]
       ++ lit "```" ++ [LF] ++ lit "a" ++ [LF] ++ lit "```" ++ [LF; LF]
       ++ lit "### Code example 2" ++ [LF; LF]
       ++ lit "```" ++ [LF] ++ lit "b" ++ [LF] ++ lit "```" ++ [LF; LF].
Proof. vm_compute. split; reflexivity. Qed.

(** C4: the extraction of [src/scrape-storybook.js] maps every matched
    element to a block and never compares texts, so for the texts a, a, b
    the document gets three sections, "Code example 1" and "Code example 2"
    both holding a, and b under "Code example 3". *)
Theorem duplicate_code_blocks_kept :
  let el n (t : string) := mkElement n (lit t) None [] in
  let page := ScrapeStorybook.mkPage [el 1 "a"%string; el 2 "a"%string; el 3 "b"%string] [] in
  List.map code (codeBlocks (ScrapeStorybook.evaluateContent page))
  = [lit "a"; lit "a"; lit "b"]
  /\ contentSections 2 (ScrapeStorybook.evaluateContent page)
     = lit "### Code example 1" ++ [LF; LF]
       ++ lit "```" ++ [LF] ++ lit "a" ++ [LF] ++ lit "```" ++ [LF; LF]
       ++ lit "### Code example 2" ++ [LF; LF]
       ++ lit "```" ++ [LF] ++ lit "a" ++ [LF] ++ lit "```" ++ [LF; LF]
       ++ lit "### Code example 3" ++ [LF; LF]
       ++ lit "```" ++ [LF] ++ lit "b" ++ [LF] ++ lit "```" ++ [LF; LF].
Proof. vm_compute. split; reflexivity. Qed.

(** [normalize] of [src/scrape-storybook.js] trims both ends of the text and
    leaves blanks before a newline alone. *)
Example normalize_trims_both_ends :
  ScrapeStorybook.normalize (lit "  a " ++ [LF] ++ lit "  b" ++ [LF])
  = lit "a " ++ [LF] ++ lit "  b".
Proof. vm_compute. reflexivity. Qed.

(** * Further properties of the code *)

(** ** [split] and the title parts *)

Lemma split_nonempty sep (s : jsstring) : split sep s <> [].
Proof.
  destruct s as [|c r]; simpl; [discriminate|].
  destruct (N.eqb c sep); [discriminate|].
  destruct (split sep r); discriminate.
Qed.

Lemma join_cons_cons sep (x y : jsstring) l :
  join sep (x :: y :: l) = x ++ sep ++ join sep (y :: l).
Proof. reflexivity. Qed.

Lemma split_join_roundtrip_facts sep (s : jsstring) :
  join [sep] (split sep s) = s
  /\ Forall (fun seg => ~ In sep seg) (split sep s)
  /\ length (split sep s) = S (count_occ N.eq_dec s sep).
Proof.
  induction s as [|c r (IHj & IHf & IHl)]; simpl.
  - repeat split. constructor; [tauto | constructor].
  - pose proof (split_nonempty sep r) as Hne.
    destruct (N.eqb c sep) eqn:E.
    + apply N.eqb_eq in E. subst c.
      destruct (N.eq_dec sep sep) as [_|n]; [|congruence].
      destruct (split sep r) as [|seg segs] eqn:Hs; [congruence|].
      rewrite join_cons_cons, IHj. simpl. repeat split.
      * constructor; [tauto | exact IHf].
      * simpl in IHl. congruence.
    + apply N.eqb_neq in E.
      destruct (N.eq_dec c sep) as [e|_]; [congruence|].
      destruct (split sep r) as [|seg segs] eqn:Hs; [congruence|].
      apply Forall_cons_iff in IHf as [Hseg Hsegs]. repeat split.
      * rewrite <- IHj. now destruct segs.
      * constructor; [|exact Hsegs]. simpl. intros [H|H]; [congruence | tauto].
      * exact IHl.
Qed.

(** Splitting loses nothing: joining the segments with the separator gives
    the text back, no segment holds the separator, and there is one more
    segment than there are separators in the text. *)
Theorem split_join_roundtrip sep (s : jsstring) :
  join [sep] (split sep s) = s
  /\ Forall (fun seg => ~ In sep seg) (split sep s)
  /\ length (split sep s) = S (count_occ N.eq_dec s sep).
Proof.
  induction s as [|c r (IHj & IHf & IHl)]; simpl.
  - repeat split. constructor; [tauto | constructor].
  - pose proof (split_nonempty sep r) as Hne.
    destruct (N.eqb c sep) eqn:E.
    + apply N.eqb_eq in E. subst c.
      destruct (N.eq_dec sep sep) as [_|n]; [|congruence].
      destruct (split sep r) as [|seg segs] eqn:Hs; [congruence|].
      rewrite join_cons_cons, IHj. simpl. repeat split.
      * constructor; [tauto | exact IHf].
      * simpl in IHl. congruence.
    + apply N.eqb_neq in E.
      destruct (N.eq_dec c sep) as [e|_]; [congruence|].
      destruct (split sep r) as [|seg segs] eqn:Hs; [congruence|].
      apply Forall_cons_iff in IHf as [Hseg Hsegs]. repeat split.
      * rewrite <- IHj. now destruct segs.
      * constructor; [|exact Hsegs]. simpl. intros [H|H]; [congruence | tauto].
      * exact IHl.
Qed.

(** The parts of a title are never empty and never hold a slash; a story
    without a title, or with an empty one, has no parts. *)
Theorem title_parts_nonempty_slash_free (story : Story) :
  Forall (fun part => part <> [] /\ ~ In SLASH part) (titlePartsOf story)
  /\ (story_title story = None \/ story_title story = Some [] ->
        titlePartsOf story = []).
Proof.
  split.
  - unfold titlePartsOf. apply Forall_forall. intros part Hin.
    apply filter_In in Hin as [Hin Ht]. split.
    + intros ->. discriminate.
    + destruct (split_join_roundtrip_facts SLASH (or_else (story_title story) []))
        as (_ & Hf & _).
      rewrite Forall_forall in Hf. now apply Hf.
  - unfold titlePartsOf. intros [H|H]; now rewrite H.
Qed.

Lemma title_parts_nonempty_slash_free_witness :
  let story := mkStory (lit "x") None (Some (lit "N")) in
  (story_title story = None \/ story_title story = Some [])
  /\ titlePartsOf story = [].
Proof.
  intros story.
  assert (H : story_title story = None \/ story_title story = Some [])
    by (left; reflexivity).
  split; [exact H|].
  exact (proj2 (title_parts_nonempty_slash_free story) H).
Defined.

(** ** The title loop *)

Lemma segsFrom_nil_iff : forall cur level last,
  segsFrom level cur last = [] <-> firstn (length cur) last = cur.
Proof.
  induction cur as [|c cs IH]; intros level last; simpl; [tauto|].
  destruct last as [|p ps]; simpl.
  - split; discriminate.
  - unfold jsstring_eqb. destruct (jsstring_eq_dec c p) as [->|n]; simpl.
    + rewrite IH. split; [now intros -> | now intros [= ->]].
    + split; [discriminate | intros [= H]; congruence].
Qed.

(** The title loop adds no heading exactly when the title parts are a
    prefix of the cursor: repeating a title, or stepping up to an ancestor
    path, writes the leaf heading only. *)
Theorem no_segment_heading_iff_prefix (titleParts last : list jsstring) md :
  headingLoop titleParts last md = md
  <-> firstn (length titleParts) last = titleParts.
Proof.
  rewrite headingLoop_app, <- (segsFrom_nil_iff titleParts 1 last),
    <- segmentHeadings_segsFrom, <- renderHeadings_nil.
  split.
  - intros H. rewrite <- (app_nil_r md) in H at 2. now apply app_inv_head in H.
  - intros ->. apply app_nil_r.
Qed.

(** With an empty cursor (the first story of a run) every title part gets
    its heading, part [i] at level [i + 1], in order. *)
Theorem first_story_emits_every_segment (titleParts : list jsstring) md :
  headingLoop titleParts [] md
  = md ++ flat_map (fun p => heading (fst p) (snd p))
            (combine (seq 1 (length titleParts)) titleParts).
Proof.
  rewrite headingLoop_app, segmentHeadings_segsFrom. f_equal.
  unfold renderHeadings. f_equal.
  generalize 1 as level.
  induction titleParts as [|c cs IH]; intros level; simpl; [reflexivity|].
  now rewrite IH.
Qed.

Lemma segsFrom_above : forall cur level last,
  Forall (fun h => level <= fst h) (segsFrom level cur last).
Proof.
  intros. eapply Forall_impl; [|apply segsFrom_levels]. simpl; intros; lia.
Qed.

Lemma segsFrom_first_divergence : forall cur last level,
  commonPrefixLength cur last < length cur ->
  exists rest,
    segsFrom level cur last
    = (level + commonPrefixLength cur last,
       nth (commonPrefixLength cur last) cur []) :: rest
    /\ Forall (fun h => level + commonPrefixLength cur last < fst h) rest.
Proof.
  induction cur as [|c cs IH]; intros last level Hk; simpl in *; [lia|].
  destruct last as [|p ps]; simpl in *.
  - exists (segsFrom (S level) cs []). rewrite Nat.add_0_r. split; [reflexivity|].
    eapply Forall_impl; [|apply segsFrom_above]. simpl; intros; lia.
  - destruct (jsstring_eqb c p) eqn:E; simpl.
    + destruct (IH ps (S level) ltac:(lia)) as (rest & Hr & Hf).
      replace (level + S (commonPrefixLength cs ps))
        with (S level + commonPrefixLength cs ps) by lia.
      now exists rest.
    + exists (segsFrom (S level) cs ps). rewrite Nat.add_0_r.
      split; [reflexivity|].
      eapply Forall_impl; [|apply segsFrom_above]. simpl; intros; lia.
Qed.

(** Below a common prefix of length [k] that is shorter than the path, the
    first heading the title loop writes is that of part [k], at level
    [k + 1], and every later one lies deeper: nothing of the common prefix
    is repeated and the first part that differs is never skipped. *)
Theorem first_divergent_segment_emitted (cur last : list jsstring) md :
  let k := commonPrefixLength cur last in
  k < length cur ->
  exists rest,
    headingLoop cur last md
    = md ++ heading (k + 1) (nth k cur []) ++ renderHeadings rest
    /\ segmentHeadings cur last = (k + 1, nth k cur []) :: rest
    /\ Forall (fun h => k + 1 < fst h) rest.
Proof.
  intros k Hk. rewrite headingLoop_app, segmentHeadings_segsFrom.
  destruct (segsFrom_first_divergence cur last 1 Hk) as (rest & Hr & Hf).
  fold k in Hr, Hf. replace (k + 1) with (1 + k) by lia.
  exists rest. rewrite Hr. now repeat split.
Qed.

Lemma first_divergent_segment_emitted_witness :
  let cur := [lit "A"; lit "X"; lit "Y"] in
  let last := [lit "A"; lit "B"] in
  commonPrefixLength cur last < length cur
  /\ exists rest,
       headingLoop cur last []
       = [] ++ heading 2 (lit "X") ++ renderHeadings rest
       /\ segmentHeadings cur last = (2, lit "X") :: rest
       /\ Forall (fun h => 2 < fst h) rest.
Proof.
  intros cur last.
  assert (H : commonPrefixLength cur last < length cur) by (vm_compute; lia).
  split; [exact H|].
  exact (first_divergent_segment_emitted cur last [] H).
Defined.

(** ** The run of [main] *)

Lemma dropTrailingSlash_snoc : forall (s : jsstring) c,
  dropTrailingSlash (s ++ [c]) = if N.eqb c SLASH then s else s ++ [c].
Proof.
  induction s as [|d r IH]; intros c; simpl.
  - now destruct (N.eqb c SLASH).
  - rewrite IH. destruct (r ++ [c]) eqn:E.
    + now destruct r.
    + now destruct (N.eqb c SLASH).
Qed.

(** Of the base URL exactly one final slash is dropped: a text ending in a
    slash loses that slash and nothing else, and any other text is kept. *)
Theorem base_url_loses_one_final_slash (s : jsstring) :
  dropTrailingSlash (s ++ [SLASH]) = s
  /\ (forall c, c <> SLASH -> dropTrailingSlash (s ++ [c]) = s ++ [c])
  /\ dropTrailingSlash [] = [].
Proof.
  split; [|split; [|reflexivity]].
  - now rewrite dropTrailingSlash_snoc.
  - intros c Hc. rewrite dropTrailingSlash_snoc.
    apply N.eqb_neq in Hc. now rewrite Hc.
Qed.

Lemma base_url_loses_one_final_slash_witness :
  N.of_nat 97 <> SLASH
  /\ dropTrailingSlash (lit "http://sb/" ++ [N.of_nat 97]) = lit "http://sb/a".
Proof.
  assert (H : N.of_nat 97 <> SLASH) by discriminate.
  split; [exact H|].
  exact (proj1 (proj2 (base_url_loses_one_final_slash (lit "http://sb/")))
           (N.of_nat 97) H).
Defined.

Section DriverRuns.

Variable Page : Type.
Variable evaluateContent : Page -> Content.

(** A run over a manifest in two pieces is the run over the first piece
    followed by the run over the second from the state the first left; an
    abort in the first piece aborts the whole. *)
Theorem storiesLoop_app (a b : list (Story * option Page)) : forall st,
  storiesLoop evaluateContent (a ++ b) st
  = match storiesLoop evaluateContent a st with
    | Normal st' => storiesLoop evaluateContent b st'
    | Throw => Throw
    end.
Proof.
  induction a as [|[story goto] rest IH]; intros st; simpl; [reflexivity|].
  destruct (loopBody evaluateContent st story goto); [apply IH | reflexivity].
Qed.

Lemma loopBody_prefix pre md cur story goto :
  loopBody evaluateContent (mkLoopState (pre ++ md) cur) story goto
  = match loopBody evaluateContent (mkLoopState md cur) story goto with
    | Normal st' =>
        Normal (mkLoopState (pre ++ markdown st') (lastTitleParts st'))
    | Throw => Throw
    end.
Proof.
  destruct goto as [page|]; simpl; [|reflexivity].
  destruct (story_title story); [|reflexivity].
  now rewrite <- app_assoc.
Qed.

Lemma storiesLoop_appends_only_facts (stories : list (Story * option Page)) :
  forall pre md cur,
  storiesLoop evaluateContent stories (mkLoopState (pre ++ md) cur)
  = match storiesLoop evaluateContent stories (mkLoopState md cur) with
    | Normal st' =>
        Normal (mkLoopState (pre ++ markdown st') (lastTitleParts st'))
    | Throw => Throw
    end.
Proof.
  induction stories as [|[story goto] rest IH]; intros pre md cur; simpl.
  - reflexivity.
  - rewrite loopBody_prefix.
    destruct (loopBody evaluateContent (mkLoopState md cur) story goto)
      as [[md' cur']|]; [|reflexivity].
    apply IH.
Qed.

(** The loop only appends: what a run adds to the document depends on the
    cursor it starts from and not on the text written so far, and the text
    written so far stays in front unchanged. *)
Theorem storiesLoop_appends_only (stories : list (Story * option Page)) :
  forall pre md cur,
  storiesLoop evaluateContent stories (mkLoopState (pre ++ md) cur)
  = match storiesLoop evaluateContent stories (mkLoopState md cur) with
    | Normal st' =>
        Normal (mkLoopState (pre ++ markdown st') (lastTitleParts st'))
    | Throw => Throw
    end.
Proof.
  induction stories as [|[story goto] rest IH]; intros pre md cur; simpl.
  - reflexivity.
  - rewrite loopBody_prefix.
    destruct (loopBody evaluateContent (mkLoopState md cur) story goto)
      as [[md' cur']|]; [|reflexivity].
    apply IH.
Qed.

Lemma storiesLoop_throw_iff (stories : list (Story * option Page)) : forall st,
  storiesLoop evaluateContent stories st = Throw
  <-> allLoadedTitled stories = false.
Proof.
  induction stories as [|[story [page|]] rest IH]; intros st; simpl.
  - split; discriminate.
  - destruct (story_title story); simpl.
    + apply IH.
    + split; reflexivity.
  - apply IH.
Qed.

(** Given the fetched manifest, the run ends with exit status 1 and writes
    no document whenever the base URL is empty (after its final slash is
    dropped), the manifest has no story, or some story whose page loaded has
    no title, wherever in the manifest it stands. *)
Theorem main_exits_without_document
    (argv2 : jsstring) (stories : list (Story * option Page)) :
  dropTrailingSlash argv2 = [] \/ stories = []
  \/ allLoadedTitled stories = false ->
  main evaluateContent argv2 stories = Exit1.
Proof.
  unfold main.
  destruct (dropTrailingSlash argv2) as [|c r] eqn:B; cbn [truthy negb];
    [reflexivity|].
  destruct stories as [|e rest]; cbn [length Nat.eqb]; [reflexivity|].
  intros [H|[H|H]]; try discriminate.
  apply (storiesLoop_throw_iff (e :: rest)
           (mkLoopState (preamble (c :: r)) [])) in H.
  now rewrite H.
Qed.

(** A document that is written starts with the preamble for the base URL
    without its final slash. *)
Theorem written_document_starts_with_preamble
    (argv2 : jsstring) (stories : list (Story * option Page)) doc :
  main evaluateContent argv2 stories = Written doc ->
  exists sections, doc = preamble (dropTrailingSlash argv2) ++ sections.
Proof.
  unfold main.
  destruct (negb (truthy (dropTrailingSlash argv2))); [discriminate|].
  destruct (length stories =? 0); [discriminate|].
  pose proof (storiesLoop_appends_only_facts stories
                (preamble (dropTrailingSlash argv2)) [] []) as A.
  rewrite app_nil_r in A. rewrite A.
  destruct (storiesLoop evaluateContent stories (mkLoopState [] []))
    as [st|]; [|discriminate].
  simpl. intros [= <-]. now exists (markdown st).
Qed.

End DriverRuns.

(** A story without a title at the end of the manifest, after one that is
    complete: the run writes nothing. *)
Lemma main_exits_without_document_witness :
  let good := mkStory (lit "button--primary") (Some (lit "Button"))
                      (Some (lit "Primary")) in
  let bad := mkStory (lit "x") None (Some (lit "N")) in
  let page := ScrapeStorybook.mkPage [] [] in
  let stories := [(good, Some page); (bad, Some page)] in
  (dropTrailingSlash (lit "http://sb") = [] \/ stories = []
   \/ allLoadedTitled stories = false)
  /\ main ScrapeStorybook.evaluateContent (lit "http://sb") stories = Exit1.
Proof.
  intros good bad page stories.
  assert (H : dropTrailingSlash (lit "http://sb") = [] \/ stories = []
              \/ allLoadedTitled stories = false)
    by (right; right; reflexivity).
  split; [exact H|].
  exact (@main_exits_without_document _ ScrapeStorybook.evaluateContent
           (lit "http://sb") stories H).
Defined.

Lemma written_document_starts_with_preamble_witness :
  let story := mkStory (lit "button--primary") (Some (lit "Button"))
                       (Some (lit "Primary")) in
  let stories := [(story, Some (ScrapeStorybook.mkPage [] []))] in
  let doc := preamble (lit "http://sb") ++ lit "# Button" ++ [LF; LF]
             ++ lit "## Primary" ++ [LF; LF] in
  main ScrapeStorybook.evaluateContent (lit "http://sb/") stories = Written doc
  /\ exists sections,
       doc = preamble (dropTrailingSlash (lit "http://sb/")) ++ sections.
Proof.
  intros story stories doc.
  assert (H : main ScrapeStorybook.evaluateContent (lit "http://sb/") stories
              = Written doc) by (vm_compute; reflexivity).
  split; [exact H|].
  exact (written_document_starts_with_preamble
           ScrapeStorybook.evaluateContent (lit "http://sb/") stories H).
Defined.

(** ** Tables *)

Lemma effectiveHeaders_nonempty_iff (table : Table) :
  effectiveHeaders table <> []
  <-> headers table <> []
      \/ exists cell row0 rest, rows table = (cell :: row0) :: rest.
Proof.
  unfold effectiveHeaders.
  destruct (headers table) as [|h hs]; simpl.
  - destruct (rows table) as [|[|cell row0] rest]; simpl.
    + split; [congruence|]. intros [H|(c & r & t & H)]; [congruence | discriminate].
    + split; [intros H; now elim H|].
      intros [H|(c & r & t & H)]; [congruence | discriminate].
    + split; [|discriminate]. intros _. right. now exists cell, row0, rest.
  - split; [|discriminate]. intros _. left. discriminate.
Qed.

(** A table is written with its header line, separator line and rows
    exactly when it has a header of its own or its first row has a cell;
    otherwise, and only then, what [emitTable] appends is the "Props table
    N" heading alone. *)
Theorem table_body_emitted_iff level md (table : Table) idx :
  let title := heading (level + 1) (lit "Props table " ++ decimal (idx + 1)) in
  let hs := effectiveHeaders table in
  (emitTable level md table idx = md ++ title
   <-> ~ (headers table <> []
          \/ exists cell row0 rest, rows table = (cell :: row0) :: rest))
  /\ (headers table <> []
      \/ (exists cell row0 rest, rows table = (cell :: row0) :: rest) ->
      hs <> []
      /\ emitTable level md table idx
         = md ++ title ++ rowLine hs ++ separatorLine hs
           ++ flat_map
                (fun row => rowLine (row ++ List.repeat [] (length hs - length row)))
                (rows table)
           ++ [LF]).
Proof.
  intros title hs.
  assert (Hfull : hs <> [] ->
            emitTable level md table idx
            = md ++ title ++ rowLine hs ++ separatorLine hs
              ++ flat_map
                   (fun row => rowLine (row ++ List.repeat [] (length hs - length row)))
                   (rows table)
              ++ [LF]).
  { intros Hne. now apply emitTable_emitted. }
  split.
  - rewrite <- effectiveHeaders_nonempty_iff. fold hs. split.
    + intros E Hne. rewrite (Hfull Hne) in E.
      apply app_inv_head in E.
      rewrite <- (app_nil_r title) in E at 2. apply app_inv_head in E.
      apply (f_equal (@length _)) in E. unfold rowLine in E.
      rewrite !length_app in E. simpl in E. lia.
    + intros Hn. apply emitTable_skipped.
      destruct (effectiveHeaders table) eqn:E; [reflexivity|].
      exfalso. apply Hn. discriminate.
  - intros H. apply effectiveHeaders_nonempty_iff in H.
    split; [exact H | now apply Hfull].
Qed.

(** Headers given and no row: header line and separator line are written. *)
Lemma table_body_emitted_iff_witness :
  let table := mkTable [lit "Name"] [] in
  (headers table <> []
   \/ exists cell row0 rest, rows table = (cell :: row0) :: rest)
  /\ emitTable 2 [] table 0
     = lit "### Props table 1" ++ [LF; LF]
       ++ lit "| Name |" ++ [LF] ++ lit "| --- |" ++ [LF] ++ [LF].
Proof.
  intros table.
  assert (H : headers table <> []
              \/ exists cell row0 rest, rows table = (cell :: row0) :: rest)
    by (left; discriminate).
  split; [exact H|].
  rewrite (proj2 (proj2 (table_body_emitted_iff 2 [] table 0) H)).
  vm_compute. reflexivity.
Defined.

(** ** [trim] and [normalize] *)

Lemma forallb_rev (A : Type) (f : A -> bool) (l : list A) :
  forallb f (rev l) = forallb f l.
Proof.
  induction l as [|x l IH]; [reflexivity|]. simpl.
  rewrite forallb_app, IH. simpl. rewrite andb_true_r. apply andb_comm.
Qed.

Lemma trimStart_split (s : jsstring) :
  exists pre, s = pre ++ trimStart s /\ forallb isJsWhitespace pre = true.
Proof.
  induction s as [|c r (pre & E & W)]; simpl.
  - now exists [].
  - destruct (isJsWhitespace c) eqn:C.
    + exists (c :: pre). simpl. rewrite C, W. split; [now f_equal | reflexivity].
    + now exists [].
Qed.

Lemma trimStart_clean (s : jsstring) : startsWhitespace (trimStart s) = false.
Proof.
  induction s as [|c r IH]; [reflexivity|]. simpl.
  destruct (isJsWhitespace c) eqn:C; [exact IH | simpl; exact C].
Qed.

Lemma trimStart_fixed (s : jsstring) :
  startsWhitespace s = false -> trimStart s = s.
Proof. destruct s as [|c r]; simpl; [reflexivity|]. now intros ->. Qed.

Lemma trimEnd_split (s : jsstring) :
  exists post, s = trimEnd s ++ post /\ forallb isJsWhitespace post = true.
Proof.
  destruct (trimStart_split (rev s)) as (pre & E & W).
  exists (rev pre). split.
  - unfold trimEnd. rewrite <- rev_app_distr, <- E. symmetry. apply rev_involutive.
  - now rewrite forallb_rev.
Qed.

Lemma trimEnd_clean (s : jsstring) : endsClean (trimEnd s) = true.
Proof.
  unfold endsClean, trimEnd. now rewrite rev_involutive, trimStart_clean.
Qed.

Lemma trimEnd_fixed (s : jsstring) : endsClean s = true -> trimEnd s = s.
Proof.
  unfold endsClean, trimEnd. intros H. apply negb_true_iff in H.
  rewrite trimStart_fixed by exact H. apply rev_involutive.
Qed.

Lemma trimEnd_keeps_start (s : jsstring) :
  startsWhitespace s = false -> startsWhitespace (trimEnd s) = false.
Proof.
  intros H. destruct (trimEnd_split s) as (post & E & _).
  destruct (trimEnd s) as [|c r]; [reflexivity|].
  rewrite E in H. exact H.
Qed.

Lemma trim_cuts_both_ends_facts (s : jsstring) :
  (exists pre post,
     s = pre ++ trim s ++ post
     /\ forallb isJsWhitespace pre = true
     /\ forallb isJsWhitespace post = true)
  /\ startsWhitespace (trim s) = false
  /\ endsClean (trim s) = true
  /\ trim (trim s) = trim s.
Proof.
  assert (Hs : startsWhitespace (trim s) = false).
  { unfold trim. apply trimEnd_keeps_start, trimStart_clean. }
  assert (He : endsClean (trim s) = true) by apply trimEnd_clean.
  split; [|split; [exact Hs | split; [exact He|]]].
  - destruct (trimStart_split s) as (pre & E1 & W1).
    destruct (trimEnd_split (trimStart s)) as (post & E2 & W2).
    exists pre, post. unfold trim. now rewrite <- E2.
  - unfold trim at 1. now rewrite (trimStart_fixed _ Hs), (trimEnd_fixed _ He).
Qed.

(** [trim] cuts whitespace off both ends and nothing else: the text is a
    run of whitespace, the trimmed text, and a run of whitespace; the
    trimmed text neither starts nor ends with whitespace; trimming again
    changes nothing. *)
Theorem trim_cuts_both_ends (s : jsstring) :
  (exists pre post,
     s = pre ++ trim s ++ post
     /\ forallb isJsWhitespace pre = true
     /\ forallb isJsWhitespace post = true)
  /\ startsWhitespace (trim s) = false
  /\ endsClean (trim s) = true
  /\ trim (trim s) = trim s.
Proof.
  assert (Hs : startsWhitespace (trim s) = false).
  { unfold trim. apply trimEnd_keeps_start, trimStart_clean. }
  assert (He : endsClean (trim s) = true) by apply trimEnd_clean.
  split; [|split; [exact Hs | split; [exact He|]]].
  - destruct (trimStart_split s) as (pre & E1 & W1).
    destruct (trimEnd_split (trimStart s)) as (post & E2 & W2).
    exists pre, post. unfold trim. now rewrite <- E2.
  - unfold trim at 1. now rewrite (trimStart_fixed _ Hs), (trimEnd_fixed _ He).
Qed.

Lemma trim_In (s : jsstring) c : In c (trim s) -> In c s.
Proof.
  destruct (trim_cuts_both_ends_facts s) as ((pre & post & E & _) & _).
  intros H. rewrite E. apply in_or_app. right. apply in_or_app. now left.
Qed.

Lemma normalize_idempotent_facts (s : jsstring) :
  ~ In NBSP (ScrapeStorybook.normalize s)
  /\ startsWhitespace (ScrapeStorybook.normalize s) = false
  /\ endsClean (ScrapeStorybook.normalize s) = true
  /\ ScrapeStorybook.normalize (ScrapeStorybook.normalize s)
     = ScrapeStorybook.normalize s.
Proof.
  unfold ScrapeStorybook.normalize.
  assert (Hn : ~ In NBSP (trim (replaceNbsp s))).
  { intros H. apply trim_In, replaceNbsp_In in H. now destruct H. }
  destruct (trim_cuts_both_ends_facts (replaceNbsp s)) as (_ & Hs & He & Ht).
  repeat split; try assumption.
  now rewrite (replaceNbsp_id _ Hn).
Qed.

(** [normalize] of [src/scrape-storybook.js] gives a text without no-break
    spaces that neither starts nor ends with whitespace, and normalizing a
    normalized text changes nothing. *)
Theorem normalize_idempotent (s : jsstring) :
  ~ In NBSP (ScrapeStorybook.normalize s)
  /\ startsWhitespace (ScrapeStorybook.normalize s) = false
  /\ endsClean (ScrapeStorybook.normalize s) = true
  /\ ScrapeStorybook.normalize (ScrapeStorybook.normalize s)
     = ScrapeStorybook.normalize s.
Proof.
  unfold ScrapeStorybook.normalize.
  assert (Hn : ~ In NBSP (trim (replaceNbsp s))).
  { intros H. apply trim_In, replaceNbsp_In in H. now destruct H. }
  destruct (trim_cuts_both_ends_facts (replaceNbsp s)) as (_ & Hs & He & Ht).
  repeat split; try assumption.
  now rewrite (replaceNbsp_id _ Hn).
Qed.

(** ** [normalizeCode] *)

(** On a text without CR, [normalizeCode] is idempotent and its result has
    neither a no-break space nor a CR. *)
Theorem normalizeCode_idempotent_without_cr (s : jsstring) :
  ~ In CR s ->
  ~ In NBSP (Part000.normalizeCode s)
  /\ ~ In CR (Part000.normalizeCode s)
  /\ Part000.normalizeCode (Part000.normalizeCode s) = Part000.normalizeCode s.
Proof.
  intros Hc.
  assert (Hc' : ~ In CR (replaceNbsp s)).
  { intros H. apply replaceNbsp_In in H as [_ [H|H]]; [tauto | discriminate]. }
  assert (E : Part000.normalizeCode s = dropTrailingBlanks (replaceNbsp s)).
  { now rewrite normalizeCode_refines, replaceCrLf_id. }
  assert (Hn : ~ In NBSP (Part000.normalizeCode s)).
  { rewrite E. intros H. apply dropTrailingBlanks_In, replaceNbsp_In in H.
    now destruct H. }
  assert (Hr : ~ In CR (Part000.normalizeCode s)).
  { rewrite E. intros H. now apply dropTrailingBlanks_In in H. }
  split; [exact Hn|]. split; [exact Hr|].
  rewrite (normalizeCode_refines (Part000.normalizeCode s)).
  rewrite replaceNbsp_id, replaceCrLf_id by assumption.
  apply dropTrailingBlanks_fixed. rewrite E. apply dropTrailingBlanks_clean.
Qed.

Lemma normalizeCode_idempotent_without_cr_witness :
  let s := lit "a " ++ [NBSP; TAB; LF] ++ lit " b  " in
  ~ In CR s
  /\ Part000.normalizeCode s = lit "a" ++ [LF] ++ lit " b"
  /\ Part000.normalizeCode (Part000.normalizeCode s) = Part000.normalizeCode s.
Proof.
  intros s.
  assert (H : ~ In CR s) by (vm_compute; intuition discriminate).
  split; [exact H|]. split; [vm_compute; reflexivity|].
  exact (proj2 (proj2 (normalizeCode_idempotent_without_cr s H))).
Defined.

(** ** The language of a code element *)

Lemma stripPrefix_Some : forall (p s rest : jsstring),
  stripPrefix p s = Some rest -> s = p ++ rest.
Proof.
  induction p as [|a p IH]; intros s rest; simpl.
  - now intros [= ->].
  - destruct s as [|b s]; [discriminate|].
    destruct (N.eqb a b) eqn:E; [|discriminate].
    apply N.eqb_eq in E. subst b. intros H. f_equal. now apply IH.
Qed.

Lemma stripPrefix_app : forall (p rest : jsstring),
  stripPrefix p (p ++ rest) = Some rest.
Proof.
  induction p as [|a p IH]; intros rest; simpl.
  - now destruct rest.
  - now rewrite N.eqb_refl.
Qed.

Lemma takeWhile_split f (s : jsstring) :
  exists post,
    s = takeWhile f s ++ post
    /\ forallb f (takeWhile f s) = true
    /\ match post with [] => true | c :: _ => negb (f c) end = true.
Proof.
  induction s as [|c r (post & E & A & P)]; simpl.
  - now exists [].
  - destruct (f c) eqn:C.
    + exists post. simpl. rewrite C, A. split; [now f_equal | now split].
    + exists (c :: r). simpl. now rewrite C.
Qed.

Lemma takeWhile_app f : forall (m post : jsstring),
  forallb f m = true ->
  match post with [] => true | c :: _ => negb (f c) end = true ->
  takeWhile f (m ++ post) = m.
Proof.
  induction m as [|c m IH]; intros post A P; simpl in *.
  - destruct post as [|d post]; [reflexivity|]. simpl.
    apply negb_true_iff in P. now rewrite P.
  - apply andb_true_iff in A as [C A]. rewrite C. f_equal. now apply IH.
Qed.

(** A language found in the class name is never empty, consists of word
    characters and dashes only, and stands in the class name right after
    [language-], up to the first character that is neither. *)
Theorem execLanguage_sound : forall (s m : jsstring),
  execLanguage s = Some m ->
  m <> []
  /\ forallb isWordOrDash m = true
  /\ exists pre post,
       s = pre ++ lit "language-" ++ m ++ post
       /\ match post with [] => true | c :: _ => negb (isWordOrDash c) end = true.
Proof.
  induction s as [|c r IH]; intros m; [discriminate|].
  cbn [execLanguage].
  assert (Hrec : execLanguage r = Some m ->
                 m <> [] /\ forallb isWordOrDash m = true
                 /\ exists pre post,
                      c :: r = pre ++ lit "language-" ++ m ++ post
                      /\ match post with [] => true
                                    | d :: _ => negb (isWordOrDash d) end = true).
  { intros H. destruct (IH m H) as (Hne & Hw & pre & post & E & P).
    split; [exact Hne|]. split; [exact Hw|].
    exists (c :: pre), post. split; [simpl; now f_equal | exact P]. }
  destruct (stripPrefix (lit "language-") (c :: r)) as [rest|] eqn:SP;
    [|exact Hrec].
  destruct (takeWhile_split isWordOrDash rest) as (post & E & A & P).
  destruct (takeWhile isWordOrDash rest) as [|d tw] eqn:TW; [exact Hrec|].
  intros [= <-]. split; [discriminate|]. split; [exact A|].
  exists [], post. split; [|exact P].
  apply stripPrefix_Some in SP. rewrite SP, E. reflexivity.
Qed.

Lemma execLanguage_sound_witness :
  let s := lit "hljs language-ts-x prism" in
  execLanguage s = Some (lit "ts-x")
  /\ lit "ts-x" <> []
  /\ forallb isWordOrDash (lit "ts-x") = true.
Proof.
  intros s.
  assert (H : execLanguage s = Some (lit "ts-x")) by (vm_compute; reflexivity).
  split; [exact H|].
  destruct (execLanguage_sound s H) as (Hne & Hw & _). now split.
Defined.

(** A class name that starts with [language-] followed by at least one word
    character or dash yields exactly that run of characters. *)
Theorem execLanguage_finds_leading_class (m post : jsstring) :
  m <> [] ->
  forallb isWordOrDash m = true ->
  match post with [] => true | c :: _ => negb (isWordOrDash c) end = true ->
  execLanguage (lit "language-" ++ m ++ post) = Some m.
Proof.
  intros Hne A P.
  pose proof (stripPrefix_app (lit "language-") (m ++ post)) as SP.
  remember (lit "language-" ++ m ++ post) as s eqn:Es.
  destruct s as [|c r]; [discriminate|].
  cbn [execLanguage]. rewrite SP, (takeWhile_app isWordOrDash m post A P).
  destruct m; [congruence | reflexivity].
Qed.

Lemma execLanguage_finds_leading_class_witness :
  lit "tsx" <> []
  /\ forallb isWordOrDash (lit "tsx") = true
  /\ execLanguage (lit "language-" ++ lit "tsx" ++ lit " hljs") = Some (lit "tsx").
Proof.
  assert (H1 : lit "tsx" <> []) by discriminate.
  assert (H2 : forallb isWordOrDash (lit "tsx") = true) by reflexivity.
  split; [exact H1|]. split; [exact H2|].
  exact (@execLanguage_finds_leading_class (lit "tsx") (lit " hljs") H1 H2 eq_refl).
Defined.

(** ** Candidates and extracted blocks of part_000 *)

Lemma NoDup_snoc (A : Type) (l : list A) a :
  NoDup l -> ~ In a l -> NoDup (l ++ [a]).
Proof.
  induction l as [|x l IH]; simpl; intros Hn Ha.
  - constructor; [tauto | constructor].
  - inversion Hn as [|? ? Hx Hl]; subst. constructor.
    + intros H. apply in_app_or in H as [H|[H|[]]]; [tauto|].
      apply Ha. now left.
    + apply IH; [exact Hl | tauto].
Qed.

(** The candidates are the matched elements as a set of DOM nodes: no node
    occurs twice, every candidate was matched by one of the six selectors,
    and every matched node is among the candidates. *)
Theorem candidates_are_distinct_nodes (page : Part000.Page) :
  let matched :=
    Part000.preCode page ++ Part000.docblockSourceCode page
    ++ Part000.osContentPre page ++ Part000.osContentCode page
    ++ Part000.prePrismjs page ++ Part000.codePrismjs page in
  NoDup (List.map node (Part000.candidatesOf page))
  /\ (forall e, In e (Part000.candidatesOf page) -> In e matched)
  /\ (forall e, In e matched ->
        exists e', In e' (Part000.candidatesOf page) /\ node e' = node e).
Proof.
  intros matched. unfold Part000.candidatesOf. fold matched.
  generalize matched as l. clear matched.
  induction l as [|x l (Hn & Hsub & Hall)] using rev_ind.
  - simpl. split; [constructor|]. split; [tauto | intros e []].
  - rewrite fold_left_app. cbn [fold_left].
    set (r := fold_left Part000.setAdd l []) in *.
    unfold Part000.setAdd.
    destruct (existsb (fun e => node e =? node x) r) eqn:X.
    + split; [exact Hn|]. split.
      * intros e He. apply in_or_app. left. now apply Hsub.
      * intros e He. apply in_app_or in He as [He|[<-|[]]]; [now apply Hall|].
        apply existsb_exists in X as (e' & He' & E).
        apply Nat.eqb_eq in E. now exists e'.
    + assert (Hx : ~ In (node x) (List.map node r)).
      { intros H. apply in_map_iff in H as (e' & E & He').
        assert (T : existsb (fun e => node e =? node x) r = true).
        { apply existsb_exists. exists e'. split; [exact He'|].
          now apply Nat.eqb_eq. }
        congruence. }
      split; [rewrite map_app; now apply NoDup_snoc|]. split.
      * intros e He. apply in_app_or in He as [He|He].
        -- apply in_or_app. left. now apply Hsub.
        -- apply in_or_app. now right.
      * intros e He. apply in_app_or in He as [He|[<-|[]]].
        -- destruct (Hall e He) as (e' & He' & E).
           exists e'. split; [apply in_or_app; now left | exact E].
        -- exists x. split; [apply in_or_app; right; now left | reflexivity].
Qed.

Lemma keepFirst_length (l : list jsstring) : length (keepFirst l) <= length l.
Proof.
  unfold keepFirst. rewrite length_rev.
  pose proof (NoDup_incl_length (NoDup_nodup jsstring_eq_dec (rev l))
                (l' := rev l)) as H.
  rewrite length_rev in H. apply H.
  intros x Hx. now apply nodup_In in Hx.
Qed.

(** In part_000 the texts of the extracted blocks are the first occurrences
    of the non-empty normalized candidate texts, in order: no text occurs
    twice and every candidate text occurs. *)
Theorem part000_texts_deduplicated (page : Part000.Page) :
  let texts := candidateTexts (Part000.candidatesOf page) in
  List.map code (Part000.extractCodeBlocks page) = keepFirst texts
  /\ NoDup (List.map code (Part000.extractCodeBlocks page))
  /\ (forall t, In t (List.map code (Part000.extractCodeBlocks page)) <-> In t texts).
Proof.
  intros texts. unfold Part000.extractCodeBlocks.
  destruct (collected_invariant (Part000.candidatesOf page)) as [_ H].
  cbv zeta in H. rewrite H. split; [reflexivity|]. split.
  - apply keepFirst_NoDup.
  - intros t. apply keepFirst_In.
Qed.

(** Every extracted block of part_000 holds a non-empty text, and there are
    at most as many blocks as candidates. *)
Theorem part000_blocks_nonempty (page : Part000.Page) :
  Forall (fun block => code block <> []) (Part000.extractCodeBlocks page)
  /\ length (Part000.extractCodeBlocks page)
     <= length (Part000.candidatesOf page).
Proof.
  destruct (part000_blocks_are_first_occurrences page) as (E & _ & _).
  cbv zeta in E. split.
  - apply Forall_forall. intros block Hb Hnil.
    assert (Hin : In (code block) (List.map code (Part000.extractCodeBlocks page)))
      by now apply in_map.
    rewrite E in Hin. apply (proj1 (keepFirst_In _ _)) in Hin.
    unfold candidateTexts in Hin. apply filter_In in Hin as [_ Ht].
    rewrite Hnil in Ht. discriminate.
  - rewrite <- (length_map code), E.
    etransitivity; [apply keepFirst_length|].
    unfold candidateTexts.
    etransitivity; [apply filter_length_le|]. now rewrite length_map.
Qed.

Lemma collected_first_element (els : list Element) :
  Forall (fun block =>
            exists pre el post,
              els = pre ++ el :: post
              /\ block = mkCodeBlock (languageOf el (dataLanguage el))
                           (Part000.normalizeCode (textContent el))
              /\ Forall (fun e => Part000.normalizeCode (textContent e)
                                  <> code block) pre)
    (Part000.collectedBlocks
       (fold_left Part000.addCodeBlockFromElement els (Part000.mkCollected [] []))).
Proof.
  induction els as [|x els IH] using rev_ind; [constructor|].
  pose proof (collected_invariant els) as (Hseen & Hcode). cbv zeta in *.
  rewrite fold_left_app. cbn [fold_left].
  set (acc := fold_left _ els _) in *.
  assert (Hold : Forall (fun block =>
            exists pre el post,
              els ++ [x] = pre ++ el :: post
              /\ block = mkCodeBlock (languageOf el (dataLanguage el))
                           (Part000.normalizeCode (textContent el))
              /\ Forall (fun e => Part000.normalizeCode (textContent e)
                                  <> code block) pre)
            (Part000.collectedBlocks acc)).
  { eapply Forall_impl; [|exact IH]. cbv beta.
    intros block (pre & el & post & E & B & F).
    exists pre, el, (post ++ [x]). rewrite E, <- app_assoc. now split. }
  unfold Part000.addCodeBlockFromElement. cbv zeta. rewrite or_else_some_nil.
  set (text := Part000.normalizeCode (textContent x)).
  destruct (truthy text) eqn:T; cbn [negb]; [|exact Hold].
  destruct (existsb (jsstring_eqb text) (Part000.seenCode acc)) eqn:X;
    [exact Hold|].
  cbn [Part000.collectedBlocks]. apply Forall_app. split; [exact Hold|].
  constructor; [|constructor].
  exists els, x, []. split; [reflexivity|]. split; [reflexivity|].
  cbn [code]. apply Forall_forall. intros e He Heq.
  assert (Hin : In text (Part000.seenCode acc)).
  { rewrite Hseen, Hcode, keepFirst_In. unfold candidateTexts.
    apply filter_In. split; [|exact T].
    apply in_map_iff. exists e. now split. }
  apply existsb_jsstring_In in Hin. congruence.
Qed.

(** Each extracted block of part_000 comes from the first candidate with
    its text: it carries the normalized text and the language of a
    candidate before which no candidate normalizes to the same text. *)
Theorem part000_block_from_first_candidate (page : Part000.Page) :
  Forall (fun block =>
            exists pre el post,
              Part000.candidatesOf page = pre ++ el :: post
              /\ code block = Part000.normalizeCode (textContent el)
              /\ language block = languageOf el (dataLanguage el)
              /\ Forall (fun e => Part000.normalizeCode (textContent e)
                                  <> code block) pre)
    (Part000.extractCodeBlocks page).
Proof.
  unfold Part000.extractCodeBlocks.
  eapply Forall_impl; [|apply collected_first_element]. cbv beta.
  intros block (pre & el & post & E & B & F).
  exists pre, el, post. subst block. now repeat split.
Qed.

(** ** Inline text and table cells of part_000 *)

Lemma trimStart_length (s : jsstring) : length (trimStart s) <= length s.
Proof.
  induction s as [|c r IH]; simpl; [lia|].
  destruct (isJsWhitespace c); simpl; lia.
Qed.

Lemma filter_notWhitespace_all (l : jsstring) :
  forallb isJsWhitespace l = true <-> filter notWhitespace l = [].
Proof.
  induction l as [|c r IH]; simpl; [tauto|]. unfold notWhitespace at 1.
  destruct (isJsWhitespace c); simpl; [exact IH | split; discriminate].
Qed.

Lemma filter_notWhitespace_trimStart (s : jsstring) :
  filter notWhitespace (trimStart s) = filter notWhitespace s.
Proof.
  induction s as [|c r IH]; [reflexivity|]. simpl.
  destruct (isJsWhitespace c) eqn:C; [|reflexivity].
  unfold notWhitespace at 2. now rewrite C.
Qed.

Lemma filter_notWhitespace_trim (s : jsstring) :
  filter notWhitespace (trim s) = filter notWhitespace s.
Proof.
  destruct (trim_cuts_both_ends_facts s) as ((pre & post & E & W1 & W2) & _).
  rewrite E at 2. rewrite !filter_app.
  apply filter_notWhitespace_all in W1, W2. rewrite W1, W2.
  now rewrite app_nil_r.
Qed.

Lemma filter_notWhitespace_replaceNbsp (s : jsstring) :
  filter notWhitespace (replaceNbsp s) = filter notWhitespace s.
Proof.
  induction s as [|c r IH]; [reflexivity|]. simpl.
  destruct (N.eqb c NBSP) eqn:E.
  - apply N.eqb_eq in E. subst c. exact IH.
  - now rewrite IH.
Qed.

Lemma replaceWhitespaceRuns_keeps_others : forall fuel (s : jsstring),
  length s <= fuel ->
  filter notWhitespace (Part000Tables.replaceWhitespaceRuns fuel s)
  = filter notWhitespace s.
Proof.
  induction fuel as [|fuel IH]; intros s Hs; [reflexivity|].
  destruct s as [|c r]; [reflexivity|]. cbn [Part000Tables.replaceWhitespaceRuns].
  simpl in Hs. destruct (isJsWhitespace c) eqn:C; simpl.
  - unfold notWhitespace at 2. rewrite C. simpl.
    rewrite IH by (pose proof (trimStart_length r); lia).
    apply filter_notWhitespace_trimStart.
  - now rewrite IH by lia.
Qed.

Lemma replaceWhitespaceRuns_start fuel (s : jsstring) :
  startsWhitespace s = false ->
  startsWhitespace (Part000Tables.replaceWhitespaceRuns fuel s) = false.
Proof.
  destruct fuel as [|fuel]; [trivial|].
  destruct s as [|c r]; [trivial|]. simpl. intros H. rewrite H. exact H.
Qed.

Lemma replaceWhitespaceRuns_spaced : forall fuel (s : jsstring),
  length s <= fuel ->
  spacedOnce (Part000Tables.replaceWhitespaceRuns fuel s) = true.
Proof.
  induction fuel as [|fuel IH]; intros s Hs.
  - destruct s; [reflexivity | simpl in Hs; lia].
  - destruct s as [|c r]; [reflexivity|].
    cbn [Part000Tables.replaceWhitespaceRuns]. simpl in Hs.
    destruct (isJsWhitespace c) eqn:C; simpl.
    + rewrite (replaceWhitespaceRuns_start fuel _ (trimStart_clean r)).
      simpl. apply IH. pose proof (trimStart_length r). lia.
    + rewrite C. simpl. apply IH. lia.
Qed.

Lemma replaceWhitespaceRuns_fixed : forall fuel (s : jsstring),
  spacedOnce s = true -> Part000Tables.replaceWhitespaceRuns fuel s = s.
Proof.
  induction fuel as [|fuel IH]; intros s Hs; [reflexivity|].
  destruct s as [|c r]; [reflexivity|].
  cbn [Part000Tables.replaceWhitespaceRuns]. simpl in Hs.
  apply andb_true_iff in Hs as [Hc Hr].
  destruct (isJsWhitespace c) eqn:C.
  - apply andb_true_iff in Hc as [Hc Hn]. apply N.eqb_eq in Hc. subst c.
    apply negb_true_iff in Hn. rewrite (trimStart_fixed _ Hn). now rewrite IH.
  - now rewrite IH.
Qed.

Lemma spacedOnce_app_r : forall (a b : jsstring),
  spacedOnce (a ++ b) = true -> spacedOnce b = true.
Proof.
  induction a as [|x a IH]; intros b H; [exact H|].
  simpl in H. apply andb_true_iff in H as [_ H]. now apply IH.
Qed.

Lemma spacedOnce_app_l : forall (a b : jsstring),
  spacedOnce (a ++ b) = true -> spacedOnce a = true.
Proof.
  induction a as [|x a IH]; intros b H; [reflexivity|].
  simpl in *. apply andb_true_iff in H as [Hx H].
  rewrite (IH b H), andb_true_r.
  destruct (isJsWhitespace x); [|reflexivity].
  apply andb_true_iff in Hx as [Hx Hn]. rewrite Hx. simpl.
  destruct a; [reflexivity | exact Hn].
Qed.

Lemma spacedOnce_trim (s : jsstring) :
  spacedOnce s = true -> spacedOnce (trim s) = true.
Proof.
  destruct (trim_cuts_both_ends_facts s) as ((pre & post & E & _) & _).
  intros H. rewrite E in H.
  apply spacedOnce_app_r in H. now apply spacedOnce_app_l in H.
Qed.

Lemma spacedOnce_whitespace_is_space : forall (s : jsstring) c,
  spacedOnce s = true -> In c s -> isJsWhitespace c = true -> c = SPACE.
Proof.
  induction s as [|x r IH]; intros c H Hin Hc; [destruct Hin|].
  simpl in H. apply andb_true_iff in H as [Hx Hr].
  destruct Hin as [->|Hin]; [|now apply (IH c)].
  rewrite Hc in Hx. apply andb_true_iff in Hx as [Hx _].
  now apply N.eqb_eq in Hx.
Qed.

Lemma normalizeInline_spaced (s : jsstring) :
  spacedOnce (Part000Tables.normalizeInline s) = true.
Proof.
  unfold Part000Tables.normalizeInline. cbv zeta.
  apply spacedOnce_trim, replaceWhitespaceRuns_spaced. lia.
Qed.

Lemma normalizeInline_keeps_others (s : jsstring) :
  filter notWhitespace (Part000Tables.normalizeInline s)
  = filter notWhitespace s.
Proof.
  unfold Part000Tables.normalizeInline. cbv zeta.
  rewrite filter_notWhitespace_trim, replaceWhitespaceRuns_keeps_others by lia.
  apply filter_notWhitespace_replaceNbsp.
Qed.

Lemma normalizeInline_single_spaced_facts (s : jsstring) :
  let t := Part000Tables.normalizeInline s in
  (forall c, In c t -> isJsWhitespace c = true -> c = SPACE)
  /\ spacedOnce t = true
  /\ startsWhitespace t = false
  /\ endsClean t = true
  /\ filter notWhitespace t = filter notWhitespace s
  /\ Part000Tables.normalizeInline t = t.
Proof.
  intros t.
  pose proof (normalizeInline_spaced s) as Hsp. fold t in Hsp.
  assert (Hw : forall c, In c t -> isJsWhitespace c = true -> c = SPACE)
    by (intros c; now apply spacedOnce_whitespace_is_space).
  assert (Hs : startsWhitespace t = false /\ endsClean t = true).
  { unfold t, Part000Tables.normalizeInline. cbv zeta.
    destruct (trim_cuts_both_ends_facts
                (Part000Tables.replaceWhitespaceRuns
                   (length (replaceNbsp s)) (replaceNbsp s)))
      as (_ & H1 & H2 & _). now split. }
  destruct Hs as [Hs He].
  split; [exact Hw|]. split; [exact Hsp|]. split; [exact Hs|].
  split; [exact He|]. split; [apply normalizeInline_keeps_others|].
  unfold Part000Tables.normalizeInline at 1. cbv zeta.
  assert (Hn : ~ In NBSP t).
  { intros H. apply Hw in H; [discriminate | reflexivity]. }
  rewrite (replaceNbsp_id _ Hn), (replaceWhitespaceRuns_fixed _ _ Hsp).
  unfold trim. now rewrite (trimStart_fixed _ Hs), (trimEnd_fixed _ He).
Qed.

(** [normalizeInline] leaves a single-line, single-spaced text: the only
    whitespace left is the space, never two in a row and never at either
    end; every character that is not whitespace is kept in order; and
    normalizing again changes nothing. *)
Theorem normalizeInline_single_spaced (s : jsstring) :
  let t := Part000Tables.normalizeInline s in
  (forall c, In c t -> isJsWhitespace c = true -> c = SPACE)
  /\ spacedOnce t = true
  /\ startsWhitespace t = false
  /\ endsClean t = true
  /\ filter notWhitespace t = filter notWhitespace s
  /\ Part000Tables.normalizeInline t = t.
Proof.
  intros t.
  pose proof (normalizeInline_spaced s) as Hsp. fold t in Hsp.
  assert (Hw : forall c, In c t -> isJsWhitespace c = true -> c = SPACE)
    by (intros c; now apply spacedOnce_whitespace_is_space).
  assert (Hs : startsWhitespace t = false /\ endsClean t = true).
  { unfold t, Part000Tables.normalizeInline. cbv zeta.
    destruct (trim_cuts_both_ends_facts
                (Part000Tables.replaceWhitespaceRuns
                   (length (replaceNbsp s)) (replaceNbsp s)))
      as (_ & H1 & H2 & _). now split. }
  destruct Hs as [Hs He].
  split; [exact Hw|]. split; [exact Hsp|]. split; [exact Hs|].
  split; [exact He|]. split; [apply normalizeInline_keeps_others|].
  unfold Part000Tables.normalizeInline at 1. cbv zeta.
  assert (Hn : ~ In NBSP t).
  { intros H. apply Hw in H; [discriminate | reflexivity]. }
  rewrite (replaceNbsp_id _ Hn), (replaceWhitespaceRuns_fixed _ _ Hsp).
  unfold trim. now rewrite (trimStart_fixed _ Hs), (trimEnd_fixed _ He).
Qed.

Lemma normalizeInline_empty_iff_facts (s : jsstring) :
  Part000Tables.normalizeInline s = [] <-> forallb isJsWhitespace s = true.
Proof.
  rewrite filter_notWhitespace_all, <- normalizeInline_keeps_others. split.
  - now intros ->.
  - intros H. apply filter_notWhitespace_all in H.
    destruct (normalizeInline_single_spaced_facts s) as (_ & _ & Hs & _).
    cbv zeta in Hs.
    destruct (Part000Tables.normalizeInline s) as [|c r]; [reflexivity|].
    simpl in *. rewrite Hs in H. discriminate.
Qed.

(** [normalizeInline] gives the empty text exactly for a text that is all
    whitespace (the empty text included). *)
Theorem normalizeInline_empty_iff (s : jsstring) :
  Part000Tables.normalizeInline s = [] <-> forallb isJsWhitespace s = true.
Proof.
  rewrite filter_notWhitespace_all, <- normalizeInline_keeps_others. split.
  - now intros ->.
  - intros H. apply filter_notWhitespace_all in H.
    destruct (normalizeInline_single_spaced_facts s) as (_ & _ & Hs & _).
    cbv zeta in Hs.
    destruct (Part000Tables.normalizeInline s) as [|c r]; [reflexivity|].
    simpl in *. rewrite Hs in H. discriminate.
Qed.

Lemma tokensOf_filter : forall (td : TdElement) acc,
  fold_left Part000Tables.pushToken td acc
  = acc ++ filter truthy (List.map Part000Tables.normalizeInline td).
Proof.
  induction td as [|n td IH]; intros acc; simpl.
  - now rewrite app_nil_r.
  - rewrite IH. unfold Part000Tables.pushToken.
    destruct (truthy (Part000Tables.normalizeInline n)); simpl.
    + now rewrite <- app_assoc.
    + reflexivity.
Qed.

Lemma forallb_concat (A : Type) (f : A -> bool) (ls : list (list A)) :
  Forall (fun l => forallb f l = true) ls -> forallb f (List.concat ls) = true.
Proof.
  induction 1 as [|l ls Hl _ IH]; [reflexivity|]. simpl.
  now rewrite forallb_app, Hl, IH.
Qed.

Lemma cell_is_joined_tokens_facts (td : TdElement) :
  Part000Tables.cellOf td
  = join [SPACE] (filter truthy (List.map Part000Tables.normalizeInline td)).
Proof.
  unfold Part000Tables.cellOf, Part000Tables.tokensOf. cbv zeta.
  rewrite tokensOf_filter. cbn [app].
  destruct (filter truthy (List.map Part000Tables.normalizeInline td))
    as [|tok toks] eqn:F; [|reflexivity].
  cbn [length Nat.ltb Nat.leb join].
  apply normalizeInline_empty_iff_facts. unfold tdTextContent.
  apply forallb_concat, Forall_forall. intros n Hn.
  apply normalizeInline_empty_iff_facts.
  destruct (Part000Tables.normalizeInline n) as [|c r] eqn:N; [reflexivity|].
  assert (Hin : In (c :: r) (filter truthy (List.map Part000Tables.normalizeInline td))).
  { apply filter_In. split; [|reflexivity].
    apply in_map_iff. now exists n. }
  rewrite F in Hin. destruct Hin.
Qed.

(** The text of a cell is always its non-empty normalized text nodes joined
    by single spaces: when there is no such node, the fallback on the
    flattened [textContent] gives the empty text as well. *)
Theorem cell_is_joined_tokens (td : TdElement) :
  Part000Tables.cellOf td
  = join [SPACE] (filter truthy (List.map Part000Tables.normalizeInline td)).
Proof.
  unfold Part000Tables.cellOf, Part000Tables.tokensOf. cbv zeta.
  rewrite tokensOf_filter. cbn [app].
  destruct (filter truthy (List.map Part000Tables.normalizeInline td))
    as [|tok toks] eqn:F; [|reflexivity].
  cbn [length Nat.ltb Nat.leb join].
  apply normalizeInline_empty_iff_facts. unfold tdTextContent.
  apply forallb_concat, Forall_forall. intros n Hn.
  apply normalizeInline_empty_iff_facts.
  destruct (Part000Tables.normalizeInline n) as [|c r] eqn:N; [reflexivity|].
  assert (Hin : In (c :: r) (filter truthy (List.map Part000Tables.normalizeInline td))).
  { apply filter_In. split; [|reflexivity].
    apply in_map_iff. now exists n. }
  rewrite F in Hin. destruct Hin.
Qed.

Lemma join_In sep : forall (l : list jsstring) c,
  In c (join sep l) -> In c sep \/ exists x, In x l /\ In c x.
Proof.
  induction l as [|x l IH]; intros c H; [destruct H|].
  destruct l as [|y l].
  - right. exists x. split; [now left | exact H].
  - rewrite join_cons_cons in H.
    apply in_app_or in H as [H|H]; [right; exists x; split; [now left | exact H]|].
    apply in_app_or in H as [H|H]; [now left|].
    destruct (IH c H) as [H'|(z & Hz & Hc)]; [now left|].
    right. exists z. split; [now right | exact Hc].
Qed.

Lemma cellOf_single_line (td : TdElement) c :
  In c (Part000Tables.cellOf td) -> isJsWhitespace c = true -> c = SPACE.
Proof.
  rewrite cell_is_joined_tokens_facts. intros H Hc.
  apply join_In in H as [[H|[]]|(tok & Htok & Hin)]; [now symmetry|].
  apply filter_In in Htok as [Htok _].
  apply in_map_iff in Htok as (n & <- & _).
  destruct (normalizeInline_single_spaced_facts n) as (Hw & _). now apply Hw.
Qed.

(** Every header and every cell of a table extracted by part_000 is a
    single line: it has no line break, tab or other whitespace than the
    plain space. *)
Theorem extracted_cells_single_line (table : TableElement) :
  let single cell :=
    forall c, In c cell -> isJsWhitespace c = true -> c = SPACE in
  Forall single (headers (Part000Tables.tableOf table))
  /\ Forall (Forall single) (rows (Part000Tables.tableOf table))
  /\ length (headers (Part000Tables.tableOf table)) = length (theadThs table)
  /\ List.map (@length _) (rows (Part000Tables.tableOf table))
     = List.map (@length _) (tbodyTrs table).
Proof.
  intros single. unfold Part000Tables.tableOf. cbn [headers rows].
  split; [|split; [|split]].
  - apply Forall_forall. intros h Hh. apply in_map_iff in Hh as (th & <- & _).
    destruct (normalizeInline_single_spaced_facts th) as (Hw & _). exact Hw.
  - apply Forall_forall. intros row Hrow.
    apply in_map_iff in Hrow as (tr & <- & _).
    apply Forall_forall. intros cell Hcell.
    apply in_map_iff in Hcell as (td & <- & _).
    intros c. apply cellOf_single_line.
  - apply length_map.
  - rewrite map_map. apply map_ext. intros tr. apply length_map.
Qed.

(** ** Tables of [src/scrape-storybook.js] *)

(** A table extracted by [src/scrape-storybook.js] keeps the shape of the
    DOM table, and each header and cell is free of no-break spaces and of
    whitespace at either end. *)
Theorem scrape_storybook_cells_trimmed (table : TableElement) :
  let clean cell :=
    ~ In NBSP cell /\ startsWhitespace cell = false /\ endsClean cell = true in
  Forall clean (headers (ScrapeStorybookTables.tableOf table))
  /\ Forall (Forall clean) (rows (ScrapeStorybookTables.tableOf table))
  /\ length (headers (ScrapeStorybookTables.tableOf table))
     = length (theadThs table)
  /\ List.map (@length _) (rows (ScrapeStorybookTables.tableOf table))
     = List.map (@length _) (tbodyTrs table).
Proof.
  intros clean. unfold ScrapeStorybookTables.tableOf. cbv zeta. cbn [headers rows].
  assert (Hc : forall s, clean (ScrapeStorybook.normalize s)).
  { intros s. destruct (normalize_idempotent_facts s) as (H1 & H2 & H3 & _).
    now repeat split. }
  split; [|split; [|split]].
  - apply Forall_forall. intros h Hh. apply in_map_iff in Hh as (th & <- & _).
    apply Hc.
  - apply Forall_forall. intros row Hrow.
    apply in_map_iff in Hrow as (tr & <- & _).
    apply Forall_forall. intros cell Hcell.
    apply in_map_iff in Hcell as (td & <- & _). apply Hc.
  - apply length_map.
  - rewrite map_map. apply map_ext. intros tr. apply length_map.
Qed.

(** ** Consecutive stories *)

Section ConsecutiveStories.

Variable Page : Type.
Variable evaluateContent : Page -> Content.

(** Two stories in a row with the same title, a title without empty
    segments, whose pages both load: the second writes no path-segment
    heading, only its leaf heading and its content sections. *)
Theorem same_title_writes_leaf_only
    (st : LoopState) (first second : Story) (title : jsstring)
    (page1 page2 : Page) :
  story_title first = Some title ->
  story_title second = Some title ->
  ~ In [] (split SLASH title) ->
  let level := length (split SLASH title) + 1 in
  storiesLoop evaluateContent [(first, Some page1); (second, Some page2)] st
  = Normal (mkLoopState
              (markdown st
               ++ buildMarkdownForStory first (evaluateContent page1)
                    (lastTitleParts st)
               ++ heading level (storyNameOf second)
               ++ contentSections level (evaluateContent page2))
              (split SLASH title)).
Proof.
  intros H1 H2 Hne level. simpl. rewrite H1, H2. simpl.
  assert (Hp : titlePartsOf second = split SLASH title).
  { destruct second as [id t name]. simpl in H2. subst t.
    rewrite titlePartsOf_titled. symmetry.
    now apply filter_fixed_forallb, forallb_truthy_no_empty. }
  rewrite (buildMarkdownForStory_sections second), Hp.
  rewrite segmentHeadings_segsFrom.
  rewrite (proj2 (segsFrom_nil_iff (split SLASH title) 1 (split SLASH title)))
    by apply firstn_all.
  simpl. now rewrite <- app_assoc.
Qed.

End ConsecutiveStories.

Lemma same_title_writes_leaf_only_witness :
  let first := mkStory (lit "components-button--primary")
                       (Some (lit "Components/Button")) (Some (lit "Primary")) in
  let second := mkStory (lit "components-button--secondary")
                        (Some (lit "Components/Button")) (Some (lit "Secondary")) in
  let page1 := ScrapeStorybook.mkPage
                 [mkElement 1 (lit "<Button/>") (Some (lit "tsx")) []] [] in
  let page2 := ScrapeStorybook.mkPage [] [] in
  ~ In [] (split SLASH (lit "Components/Button"))
  /\ storiesLoop ScrapeStorybook.evaluateContent
       [(first, Some page1); (second, Some page2)] (mkLoopState [] [])
     = Normal (mkLoopState
                 (lit "# Components" ++ [LF; LF] ++ lit "## Button" ++ [LF; LF]
                  ++ lit "### Primary" ++ [LF; LF]
                  ++ lit "#### Code example 1" ++ [LF; LF]
                  ++ lit "```tsx" ++ [LF] ++ lit "<Button/>" ++ [LF]
                  ++ lit "```" ++ [LF; LF]
                  ++ lit "### Secondary" ++ [LF; LF])
                 [lit "Components"; lit "Button"]).
Proof.
  intros first second page1 page2.
  assert (H : ~ In [] (split SLASH (lit "Components/Button"))).
  { vm_compute. intuition discriminate. }
  split; [exact H|].
  rewrite (@same_title_writes_leaf_only _ ScrapeStorybook.evaluateContent
             (mkLoopState [] []) first second (lit "Components/Button")
             page1 page2 eq_refl eq_refl H).
  vm_compute. reflexivity.
Defined.

(** ** Numbering of the code examples *)

(** The loop over the code blocks appends, for the block at position [i]
    of the input (counted from 0), one section headed "Code example i+1" a
    level below the story heading, with the fence, the language, the code
    and the closing fence; the sections come in input order. *)
Theorem code_examples_numbered_in_order level (blocks : list CodeBlock) md :
  forEach (emitCodeBlock level) blocks md
  = md ++ flat_map (fun p => codeExample level (fst p + 1) (snd p))
            (combine (seq 0 (length blocks)) blocks).
Proof.
  unfold forEach.
  rewrite (forEachFrom_sections _ (emitCodeBlock_app level)).
  f_equal. apply code_sections_numbered.
Qed.
